(** * TicTacToe: the game engine of [client/game.ts]

    A shallow embedding of the [Game] class (board, turn order, play
    history with its "fading memory" expiry, win detection, the win banner
    and its removal timer), followed by the properties the specification
    states about it.

    Modelling conventions.
    - A TypeScript [number] used as an index or a counter is an integer [Z];
      coordinates are the integer indices the click handlers pass.  What
      [play] does with a coordinate that is not an integer is modelled
      apart, in [play_number].
    - An array is a [list]; reading [a[i]] is [index a i], which is [None]
      (JavaScript's [undefined]) outside the array.
    - [null] is [None] in the type [Cell]; a value that may also be
      [undefined] has type [option Cell].
    - A method of the class takes the object as [this] and returns the
      updated object; [play] and [showWinner], which also reach the
      browser's timer table, pass a [World] (the object and the window).
    - [console.warn] produces no state and is left out. *)

From Stdlib Require Import ZArith QArith String Bool Lia Sorted.
From stdpp Require Import base list sorting.

Local Open Scope Z_scope.

(** ** Data model *)

Inductive Player := X | O.

(** [Player | null] *)
Abbreviation Cell := (option Player).

Record PlayHistory := {
  player : Player;
  row : Z;
  col : Z;
  turn : Z
}.

#[global] Instance Player_eq_dec : EqDecision Player.
Proof. solve_decision. Defined.

#[global] Instance PlayHistory_eq_dec : EqDecision PlayHistory.
Proof. solve_decision. Defined.

(** [Cell[][]] *)
Abbreviation Board := (list (list Cell)).

(** The text of a player symbol, as a template literal prints it. *)
Definition symbol (p : Player) : string :=
  match p with X => "X" | O => "O" end.

(** *** The page: what [boardElement] holds *)

Record CellDiv := {
  textContent : Cell;
  classList : list string;
  opacity : option string
}.

(** A child of [boardElement]: a row of cells, or a winner banner.  Only
    banners are looked up by identity ([contains], [removeChild]), so only
    they carry the identity of the element. *)
Inductive Node :=
| RowDiv (cells : list CellDiv)
| WinnerMessage (element : Z) (text : string).

(** *** The window's timers *)

(** A pending [setTimeout]: its handle, the time it is due, and the banner
    element its callback closes over. *)
Record Timeout := {
  handle : Z;
  due : Z;
  banner : Z
}.

Record Window := {
  now : Z;
  timers : list Timeout;
  nextHandle : Z;
  nextElement : Z
}.

(** *** The game object *)

Record Game := {
  board : Board;
  currentPlayer : Player;
  turnCount : Z;
  playHistory : list PlayHistory;
  boardElement : list Node;
  winnerTimeoutId : option Z
}.

Record World := {
  game : Game;
  window : Window
}.

Definition set_board (b : Board) (this : Game) : Game :=
  {| board := b; currentPlayer := currentPlayer this;
     turnCount := turnCount this; playHistory := playHistory this;
     boardElement := boardElement this;
     winnerTimeoutId := winnerTimeoutId this |}.

Definition set_currentPlayer (p : Player) (this : Game) : Game :=
  {| board := board this; currentPlayer := p;
     turnCount := turnCount this; playHistory := playHistory this;
     boardElement := boardElement this;
     winnerTimeoutId := winnerTimeoutId this |}.

Definition set_turnCount (n : Z) (this : Game) : Game :=
  {| board := board this; currentPlayer := currentPlayer this;
     turnCount := n; playHistory := playHistory this;
     boardElement := boardElement this;
     winnerTimeoutId := winnerTimeoutId this |}.

Definition set_playHistory (h : list PlayHistory) (this : Game) : Game :=
  {| board := board this; currentPlayer := currentPlayer this;
     turnCount := turnCount this; playHistory := h;
     boardElement := boardElement this;
     winnerTimeoutId := winnerTimeoutId this |}.

Definition set_boardElement (e : list Node) (this : Game) : Game :=
  {| board := board this; currentPlayer := currentPlayer this;
     turnCount := turnCount this; playHistory := playHistory this;
     boardElement := e;
     winnerTimeoutId := winnerTimeoutId this |}.

Definition set_winnerTimeoutId (t : option Z) (this : Game) : Game :=
  {| board := board this; currentPlayer := currentPlayer this;
     turnCount := turnCount this; playHistory := playHistory this;
     boardElement := boardElement this;
     winnerTimeoutId := t |}.

(** ** Arrays *)

(** [a.length] *)
Definition len {A} (a : list A) : Z := Z.of_nat (length a).

(** [a[i]] *)
Definition index {A} (a : list A) (i : Z) : option A :=
  if 0 <=? i then a !! Z.to_nat i else None.

(** [board[r]], read by the source only after [r] was checked. *)
Definition rowAt (b : Board) (r : Z) : list Cell :=
  default [] (index b r).

(** [board[r][c]] *)
Definition cellAt (b : Board) (r c : Z) : option Cell :=
  index (rowAt b r) c.

(** [board[r][c] = v].  Every assignment of the source is guarded by a
    bounds check on [r] and [c], so the array is never extended. *)
Definition setCell (b : Board) (r c : Z) (v : Cell) : Board :=
  alter (fun rw => <[Z.to_nat c := v]> rw) (Z.to_nat r) b.

(** [a.every((x, i) => f x i)] *)
Definition every {A} (f : A -> Z -> bool) (a : list A) : bool :=
  forallb id (imap (fun i x => f x (Z.of_nat i)) a).

(** [v === p] for a value that may be a player, [null] or [undefined]. *)
Definition is_player (v : option Cell) (p : Player) : bool :=
  bool_decide (v = Some (Some p)).

(** [v !== null] *)
Definition not_null (v : option Cell) : bool :=
  negb (bool_decide (v = Some None)).

(** ** Errors and results *)

Inductive Exception := Error (message : string).

Inductive Completion (A : Type) :=
| Return (v : A)
| Throw (e : Exception).
Arguments Return {A} v.
Arguments Throw {A} e.

(** The two failures of [play].  The source throws a plain [Error] for
    both; they differ by their message. *)
Definition InvalidCellError : Exception :=
  Error "Invalid move. Please select a valid cell.".

Definition CellTakenError : Exception :=
  Error "Cell already taken. Choose another one.".

(** ** Rendering *)

Definition adjustClassList (cellElement : CellDiv) (addClass removeClass : string)
  : CellDiv :=
  let added :=
    if existsb (String.eqb addClass) (classList cellElement)
    then classList cellElement
    else classList cellElement ++ [addClass] in
  {| textContent := textContent cellElement;
     classList := List.filter (fun c => negb (String.eqb c removeClass)) added;
     opacity := opacity cellElement |}.

Definition updateCellContent (cell : Cell) (cellElement : CellDiv) : CellDiv :=
  let cellElement :=
    {| textContent := cell; classList := classList cellElement;
       opacity := opacity cellElement |} in
  match cell with
  | Some X => adjustClassList cellElement "X" "O"
  | Some O => adjustClassList cellElement "O" "X"
  | None =>
      {| textContent := textContent cellElement;
         classList :=
           List.filter (fun c => negb (String.eqb c "X" || String.eqb c "O"))
                       (classList cellElement);
         opacity := opacity cellElement |}
  end.

Definition setCellOpacity (cellElement : CellDiv) (turnsAgo : Z) : CellDiv :=
  let opacityLevels : list string := ["1"; "0.8"; "0.5"; "0.3"]%string in
  let turnsAgoIndex := Z.min turnsAgo (len opacityLevels - 1) in
  {| textContent := textContent cellElement;
     classList := classList cellElement;
     opacity := index opacityLevels turnsAgoIndex |}.

Definition processCell (this : Game) (cell : Cell) (rowIndex colIndex : Z)
  : CellDiv :=
  let cellElement :=
    {| textContent := None; classList := ["cell"%string]; opacity := None |} in
  let cellElement := updateCellContent cell cellElement in
  match List.find (fun play => (row play =? rowIndex) && (col play =? colIndex))
                  (playHistory this) with
  | Some play =>
      let turnsAgo := turnCount this - turn play - 1 in
      setCellOpacity cellElement turnsAgo
  | None =>
      {| textContent := textContent cellElement;
         classList := classList cellElement;
         opacity := Some "1"%string |}
  end.

(** The click listener [createCellElement] attaches is the [click] step
    of the page, below. *)
Definition createCellElement (this : Game) (cell : Cell) (rowIndex colIndex : Z)
  : CellDiv :=
  processCell this cell rowIndex colIndex.

Definition addCellsToBoard (cellElements : list (list CellDiv)) (this : Game)
  : Game :=
  set_boardElement (boardElement this ++ map RowDiv cellElements) this.

Definition renderBoard (this : Game) : Game :=
  let this := set_boardElement [] this in
  let cellElements :=
    imap (fun rowIndex rw =>
            imap (fun colIndex cell =>
                    createCellElement this cell
                      (Z.of_nat rowIndex) (Z.of_nat colIndex)) rw)
         (board this) in
  addCellsToBoard cellElements this.

(** ** The engine *)

Definition setupBoard (this : Game) : Game :=
  let this :=
    set_board [[None; None; None];
               [None; None; None];
               [None; None; None]] this in
  let this := set_currentPlayer X this in
  let this := set_turnCount 0 this in
  set_playHistory [] this.

Definition resetBoard (this : Game) : Game :=
  renderBoard (setupBoard this).

Definition init (this : Game) : Game :=
  renderBoard (setupBoard this).

(** [new Game(boardElement)]: the constructor is given the content of the
    element it renders into. *)
Definition new_Game (element : list Node) : Game :=
  init {| board := []; currentPlayer := X; turnCount := 0;
          playHistory := []; boardElement := element;
          winnerTimeoutId := None |}.

(** The bounds check [play] and [updateBoardWithPlay] make before they
    access a cell. *)
Definition inBoard (b : Board) (r c : Z) : bool :=
  (r >=? 0) && (r <? len b) && (c >=? 0) && (c <? len (rowAt b r)).

Definition isValidCell (this : Game) (row col : Z) : bool :=
  inBoard (board this) row col.

(** The callback of the [filter] in [clearOldTurnsFromPlayHistory] reads
    and writes [this.board] while the array is traversed, so the board is
    threaded through the traversal; the result is the kept entries and the
    board after the last callback. *)
Fixpoint clearOldTurns (turnCount : Z) (plays : list PlayHistory) (b : Board)
  : list PlayHistory * Board :=
  match plays with
  | [] => ([], b)
  | play :: rest =>
      if (row play <? 0) || (row play >=? len b) ||
         (col play <? 0) || (col play >=? len (rowAt b (row play)))
      then clearOldTurns turnCount rest b
      else if turnCount - turn play >=? 6
      then clearOldTurns turnCount rest (setCell b (row play) (col play) None)
      else
        let (kept, b') := clearOldTurns turnCount rest b in
        (play :: kept, b')
  end.

Definition clearOldTurnsFromPlayHistory (this : Game) : Game :=
  let (kept, b) := clearOldTurns (turnCount this) (playHistory this) (board this) in
  set_playHistory kept (set_board b this).

Definition updateBoardWithPlay (play : PlayHistory) (this : Game) : Game :=
  if inBoard (board this) (row play) (col play)
  then set_board (setCell (board this) (row play) (col play) (Some (player play))) this
  else this.

Definition updateBoard (this : Game) : Game :=
  let this := clearOldTurnsFromPlayHistory this in
  let lastPlay := index (playHistory this) (len (playHistory this) - 1) in
  match lastPlay with
  | Some lastPlay => updateBoardWithPlay lastPlay this
  | None => this
  end.

(** [play] calls [checkWin] for the cell it has just validated and
    written. *)
Definition checkWin (this : Game) (row col : Z) : bool :=
  match cellAt (board this) row col with
  | Some (Some player) =>
      every (fun cell _ => is_player (Some cell) player) (rowAt (board this) row)
      || every (fun rw _ => is_player (index rw col) player) (board this)
      || ((row =? col)
          && every (fun rw i => is_player (index rw i) player) (board this))
      || ((row + col =? len (board this) - 1)
          && every (fun rw i =>
                      is_player (index rw (len (board this) - 1 - i)) player)
                   (board this))
  | _ => false
  end.

(** *** The window's timer interface *)

Definition clearTimeout (id : Z) (w : Window) : Window :=
  {| now := now w;
     timers := List.filter (fun t => negb (handle t =? id)) (timers w);
     nextHandle := nextHandle w;
     nextElement := nextElement w |}.

Definition setTimeout (callback : Z) (delay : Z) (w : Window) : Z * Window :=
  (nextHandle w,
   {| now := now w;
      timers := timers w ++ [{| handle := nextHandle w;
                                due := now w + delay;
                                banner := callback |}];
      nextHandle := nextHandle w + 1;
      nextElement := nextElement w |}).

Definition createElement (w : Window) : Z * Window :=
  (nextElement w,
   {| now := now w; timers := timers w;
      nextHandle := nextHandle w;
      nextElement := nextElement w + 1 |}).

Definition is_element (element : Z) (n : Node) : bool :=
  match n with
  | WinnerMessage e _ => e =? element
  | RowDiv _ => false
  end.

(** [boardElement.contains(winnerMessage)] *)
Definition contains (element : Z) (this : Game) : bool :=
  existsb (is_element element) (boardElement this).

(** [boardElement.removeChild(winnerMessage)] *)
Definition removeChild (element : Z) (this : Game) : Game :=
  set_boardElement
    (List.filter (fun n => negb (is_element element n)) (boardElement this)) this.

Definition showWinner (winner : Player) (this : Game) (w : Window)
  : Game * Window :=
  let '(this, w) :=
    match winnerTimeoutId this with
    | Some id => (set_winnerTimeoutId None this, clearTimeout id w)
    | None => (this, w)
    end in
  let '(winnerMessage, w) := createElement w in
  let this :=
    set_boardElement
      (boardElement this ++
       [WinnerMessage winnerMessage (String.append (symbol winner) " wins!")]) this in
  let '(id, w) := setTimeout winnerMessage 2000 w in
  (set_winnerTimeoutId (Some id) this, w).

(** The callback [showWinner] hands to [setTimeout], for the banner it
    closes over. *)
Definition winnerTimeout (winnerMessage : Z) (this : Game) : Game :=
  let this :=
    if contains winnerMessage this then removeChild winnerMessage this
    else this in
  set_winnerTimeoutId None this.

(** *** play *)

(** [play] up to the win check: the cell is written, the move is recorded,
    the turn is counted (lines 113 to 120 of the source). *)
Definition record (this : Game) (row col : Z) : Game :=
  let this :=
    set_board (setCell (board this) row col (Some (currentPlayer this))) this in
  let this :=
    set_playHistory
      (playHistory this ++
       [{| player := currentPlayer this; row := row; col := col;
           turn := turnCount this |}]) this in
  set_turnCount (turnCount this + 1) this.

Definition play (row col : Z) (w : World)
  : Completion (option string) * World :=
  let this := game w in
  if negb (isValidCell this row col) then
    (Throw InvalidCellError, w)
  else if not_null (cellAt (board this) row col) then
    (Throw CellTakenError, w)
  else
    let this := record this row col in
    let this := updateBoard this in
    let this := renderBoard this in
    if checkWin this row col then
      let winner := currentPlayer this in
      let this := resetBoard this in
      let '(this, win) := showWinner winner this (window w) in
      (Return (Some (String.append (symbol winner) " wins!")),
       {| game := this; window := win |})
    else
      let this :=
        set_currentPlayer
          (match currentPlayer this with X => O | O => X end) this in
      (Return None, {| game := this; window := window w |}).

(** ** The page as a transition system *)

(** A direct call of the public method [showWinner]. *)
Definition show (winner : Player) (w : World) : World :=
  let '(this, win) := showWinner winner (game w) (window w) in
  {| game := this; window := win |}.

(** Time passes. *)
Definition advance (d : Z) (w : World) : World :=
  {| game := game w;
     window := {| now := now (window w) + d;
                  timers := timers (window w);
                  nextHandle := nextHandle (window w);
                  nextElement := nextElement (window w) |} |}.

(** A pending timeout runs: it leaves the timer table (it is single-shot)
    and its callback is called. *)
Definition fire (t : Timeout) (w : World) : World :=
  {| game := winnerTimeout (banner t) (game w);
     window := {| now := now (window w);
                  timers :=
                    List.filter (fun t' => negb (handle t' =? handle t))
                                (timers (window w));
                  nextHandle := nextHandle (window w);
                  nextElement := nextElement (window w) |} |}.

Inductive step : World -> World -> Prop :=
| step_play row col w :
    step w (snd (play row col w))
| step_show winner w :
    step w (show winner w)
| step_advance d w :
    0 <= d -> step w (advance d w)
| step_fire t w :
    t ∈ timers (window w) -> due t <= now (window w) -> step w (fire t w).

(** The worlds a page goes through: [main.ts] constructs the game in a
    window where no timer is pending, and then events happen. *)
Inductive reachable : World -> Prop :=
| reachable_load element win :
    timers win = [] ->
    reachable {| game := new_Game element; window := win |}
| reachable_step w w' :
    reachable w -> step w w' -> reachable w'.

(** A sequence of calls of [play], the results dropped. *)
Definition plays (moves : list (Z * Z)) (w : World) : World :=
  foldl (fun w m => snd (play (fst m) (snd m) w)) w moves.

(** ** Vocabulary of the specification *)

(** The board is a 3 by 3 grid. *)
Definition shape (b : Board) : list nat := length <$> b.

Definition grid3x3 (b : Board) : Prop := shape b = [3; 3; 3]%nat.

Definition empty_board : Board :=
  [[None; None; None]; [None; None; None]; [None; None; None]].

(** The canonical initial state of the engine. *)
Definition initial_state (this : Game) : Prop :=
  board this = empty_board /\ currentPlayer this = X /\
  turnCount this = 0 /\ playHistory this = [].

Definition other (p : Player) : Player :=
  match p with X => O | O => X end.

(** The move record [play] appends. *)
Definition entry (this : Game) (r c : Z) : PlayHistory :=
  {| player := currentPlayer this; row := r; col := c; turn := turnCount this |}.

(** The game after an accepted move was written, recorded, counted and
    the old turns were cleared (line 121 of the source), before the win
    check. *)
Definition moved (this : Game) (r c : Z) : Game :=
  updateBoard (record this r c).

(** Cell [(r, c)] holds the mark of player [p]. *)
Definition owns (b : Board) (p : Player) (r c : Z) : bool :=
  is_player (cellAt b r c) p.

(** The cell [(r, c)] lies on a line of the 3 by 3 board that player [p]
    occupies entirely: its row, its column, the main diagonal when
    [r = c], the anti-diagonal when [r + c = 2]. *)
Definition completes_line (b : Board) (p : Player) (r c : Z) : bool :=
  (owns b p r 0 && owns b p r 1 && owns b p r 2)
  || (owns b p 0 c && owns b p 1 c && owns b p 2 c)
  || ((r =? c) && (owns b p 0 0 && owns b p 1 1 && owns b p 2 2))
  || ((r + c =? 2) && (owns b p 0 2 && owns b p 1 1 && owns b p 2 0)).

(** A history entry lies on the board. *)
Definition onBoard (b : Board) (e : PlayHistory) : bool :=
  inBoard b (row e) (col e).

(** A history entry is six or more turns old at turn count [n]. *)
Definition expired (n : Z) (e : PlayHistory) : bool :=
  n - turn e >=? 6.

(** The entries [clearOldTurnsFromPlayHistory] keeps. *)
Definition kept (n : Z) (b : Board) (e : PlayHistory) : bool :=
  onBoard b e && negb (expired n e).

Definition at_cell (r c : Z) (e : PlayHistory) : bool :=
  (row e =? r) && (col e =? c).

(** Some entry of [plays] at cell [(r, c)] expires at turn count [n]. *)
Definition cleared (n : Z) (b : Board) (plays : list PlayHistory) (r c : Z)
  : bool :=
  existsb (fun e => onBoard b e && expired n e && at_cell r c e) plays.

(** The number of occupied cells of a board. *)
Definition occupied (b : Board) : nat :=
  length (List.filter (fun cell : Cell => bool_decide (cell <> None)) (concat b)).

(** Cell [rc] of the board holds a mark. *)
Definition marked (b : Board) (rc : Z * Z) : bool :=
  match cellAt b (fst rc) (snd rc) with
  | Some (Some _) => true
  | _ => false
  end.

(** The nine cells of the grid. *)
Definition cells : list (Z * Z) :=
  [(0, 0); (0, 1); (0, 2); (1, 0); (1, 1); (1, 2); (2, 0); (2, 1); (2, 2)].

Definition pos (e : PlayHistory) : Z * Z := (row e, col e).

(** The player who moves at turn [n] of a game: [X] starts, and the
    players alternate. *)
Definition mover (n : Z) : Player := if Z.even n then X else O.

Definition earlier (e e' : PlayHistory) : Prop := turn e < turn e'.

(** What holds of the engine in every reachable world. *)
Record consistent (this : Game) : Prop := {
  cons_grid : grid3x3 (board this);
  cons_marks : forall e, e ∈ playHistory this ->
      cellAt (board this) (row e) (col e) = Some (Some (player e));
  cons_cells : forall r c p, cellAt (board this) r c = Some (Some p) ->
      exists e, e ∈ playHistory this /\ row e = r /\ col e = c;
  cons_pos : forall e e', e ∈ playHistory this -> e' ∈ playHistory this ->
      pos e = pos e' -> e = e';
  cons_order : StronglySorted earlier (playHistory this);
  cons_recent : forall e, e ∈ playHistory this ->
      turnCount this - 6 < turn e < turnCount this;
  cons_player : forall e, e ∈ playHistory this -> player e = mover (turn e);
  cons_current : currentPlayer this = mover (turnCount this)
}.

(** The board and the history tell the same story: a cell holds the mark
    of [p] exactly when one and only one entry has its row and column, and
    that entry is a move of [p]; and there are as many marks as entries. *)
Definition board_agrees (this : Game) : Prop :=
  (forall r c p,
     cellAt (board this) r c = Some (Some p) <->
     exists e, List.filter (at_cell r c) (playHistory this) = [e] /\
               player e = p) /\
  occupied (board this) = length (playHistory this).

(** The timeout [showWinner] schedules in window [win]. *)
Definition scheduled (win : Window) : Timeout :=
  {| handle := nextHandle win; due := now win + 2000;
     banner := nextElement win |}.

(** A page that has just loaded, for the examples. *)
Definition blank_window : Window :=
  {| now := 0; timers := []; nextHandle := 1; nextElement := 0 |}.

Definition fresh_world : World :=
  {| game := new_Game []; window := blank_window |}.

(** Five moves without a win: X (0,0), O (0,1), X (0,2), O (1,0), X (1,1). *)
Definition five_moves : World :=
  plays [(0, 0); (0, 1); (0, 2); (1, 0); (1, 1)] fresh_world.

(** A sixth move, O (1,2): the first move has expired. *)
Definition six_moves : World := plays [(1, 2)] five_moves.

(** X has won with (0,0), (0,1), (0,2): the banner is up. *)
Definition after_win : World :=
  plays [(0, 0); (1, 0); (0, 1); (1, 1); (0, 2)] fresh_world.

(** A state no game reaches: X holds two cells of the top row, one of
    them placed six turns ago, and is to move. *)
Definition forged_world : World :=
  {| game :=
       {| board := [[Some X; Some X; None];
                    [None; None; None];
                    [None; None; None]];
          currentPlayer := X;
          turnCount := 6;
          playHistory := [{| player := X; row := 0; col := 0; turn := 0 |};
                          {| player := X; row := 0; col := 1; turn := 5 |}];
          boardElement := [];
          winnerTimeoutId := None |};
     window := blank_window |}.

(** What holds of the timer table in every reachable world: the pending
    timeouts are the one [winnerTimeoutId] names, if any, and the window
    has not handed out their handles again. *)
Definition one_timer (w : World) : Prop :=
  match winnerTimeoutId (game w), timers (window w) with
  | None, [] => True
  | Some id, [t] => handle t = id /\ id < nextHandle (window w)
  | _, _ => False
  end.

(** ** Vocabulary of the further properties *)

(** The eight lines of the grid. *)
Definition lines : list (list (Z * Z)) :=
  [[(0, 0); (0, 1); (0, 2)]; [(1, 0); (1, 1); (1, 2)]; [(2, 0); (2, 1); (2, 2)];
   [(0, 0); (1, 0); (2, 0)]; [(0, 1); (1, 1); (2, 1)]; [(0, 2); (1, 2); (2, 2)];
   [(0, 0); (1, 1); (2, 2)]; [(0, 2); (1, 1); (2, 0)]].

(** Player [p] occupies every cell of line [l]. *)
Definition owns_line (b : Board) (p : Player) (l : list (Z * Z)) : bool :=
  forallb (fun rc => owns b p (fst rc) (snd rc)) l.

(** Player [p] occupies some line of the board. *)
Definition has_line (b : Board) (p : Player) : bool :=
  existsb (owns_line b p) lines.

Definition is_banner (n : Node) : bool :=
  match n with
  | WinnerMessage _ _ => true
  | RowDiv _ => false
  end.

(** The cell element in row [r], column [c] of the page, as the test's
    selector [.row:nth-child(r+1) .cell:nth-child(c+1)] finds it. *)
Definition cellElementAt (elements : list Node) (r c : Z) : option CellDiv :=
  match index elements r with
  | Some (RowDiv cells) => index cells c
  | _ => None
  end.

(** The classes of the element of a cell. *)
Definition mark_classes (cell : Cell) : list string :=
  "cell"%string :: match cell with Some p => [symbol p] | None => [] end.

(** The opacity of a mark placed [turnsAgo] turns before the last one. *)
Definition tier (turnsAgo : Z) : string :=
  if turnsAgo =? 0 then "1"
  else if turnsAgo =? 1 then "0.8"
  else if turnsAgo =? 2 then "0.5"
  else "0.3".

(** The history holds the last moves of the game, five at most: their
    turns are the [len] integers that end at [turnCount - 1]. *)
Definition last_moves (this : Game) : Prop :=
  0 <= turnCount this /\
  len (playHistory this) = Z.min (turnCount this) 5 /\
  turn <$> playHistory this =
    seqZ (turnCount this - len (playHistory this)) (len (playHistory this)).

(** A banner whose element the window has created. *)
Definition created_banner (win : Window) (n : Node) : Prop :=
  match n with
  | WinnerMessage element _ => element < nextElement win
  | RowDiv _ => False
  end.

(** The page shows the rendering of the game's present state, followed by
    [banners], which are banners the window has created. *)
Definition shows (w : World) (banners : list Node) : Prop :=
  boardElement (game w) = boardElement (renderBoard (game w)) ++ banners /\
  Forall (created_banner (window w)) banners.

(** ** Coordinates that are not integers

    [play] takes two values of type [number].  The engine above is the
    engine for integer coordinates.  This section adds what [play] does
    with any finite number, a rational [Q], before its first write: the
    bounds check of [isValidCell] and the test of the cell. *)

(** The number is an integer. *)
Definition is_integer (x : Q) : bool :=
  Qnum x mod Zpos (Qden x) =? 0.

(** The integer a number is, when it is one. *)
Definition integer_of (x : Q) : Z :=
  Qnum x / Zpos (Qden x).

(** [a[x]] for a number [x]: an array has elements at integer indices
    only, and reading it anywhere else gives [undefined]. *)
Definition index_number {A} (a : list A) (x : Q) : option A :=
  if is_integer x then index a (integer_of x) else None.

(** [x >= y] and [x < y] on numbers. *)
Definition number_geb (x y : Q) : bool := Qle_bool y x.

Definition number_ltb (x y : Q) : bool := negb (Qle_bool y x).

(** A value, or a [TypeError] that escapes. *)
Inductive OrTypeError (A : Type) :=
| Normally (v : A)
| TypeError.
Arguments Normally {A} v.
Arguments TypeError {A}.

(** [isValidCell] on numbers.  [&&] evaluates its right operand only when
    the left one is true, and [this.board[row].length] throws a
    [TypeError] when [this.board[row]] is [undefined]. *)
Definition isValidCell_number (this : Game) (row col : Q) : OrTypeError bool :=
  if negb (number_geb row 0) then Normally false
  else if negb (number_ltb row (inject_Z (len (board this)))) then Normally false
  else if negb (number_geb col 0) then Normally false
  else
    match index_number (board this) row with
    | Some rw => Normally (number_ltb col (inject_Z (len rw)))
    | None => TypeError
    end.

(** [play] on numbers.  Once [this.board[row][col]] is found to be [null]
    the cell exists, both coordinates are integers, and the call goes on
    as [play] does for them. *)
Definition play_number (row col : Q) (w : World)
  : OrTypeError (Completion (option string)) * World :=
  match isValidCell_number (game w) row col with
  | TypeError => (TypeError, w)
  | Normally false => (Normally (Throw InvalidCellError), w)
  | Normally true =>
      if not_null (index_number (board (game w)) row
                     ≫= fun rw => index_number rw col)
      then (Normally (Throw CellTakenError), w)
      else
        let '(result, w') := play (integer_of row) (integer_of col) w in
        (Normally result, w')
  end.

(** * Properties *)

(** ** Arrays: reading after writing *)

Section Arrays.

Context {A : Type}.
Implicit Types (a : list A) (i : Z).

Lemma index_Some a i x : index a i = Some x -> 0 <= i < len a.
Proof.
  unfold index, len. destruct (Z.leb_spec 0 i); [|done].
  intros Hx%lookup_lt_Some. lia.
Qed.

Lemma index_is_Some a i : 0 <= i < len a -> is_Some (index a i).
Proof.
  unfold index, len. intros [H0 Hi].
  destruct (Z.leb_spec 0 i); [|lia].
  apply lookup_lt_is_Some. lia.
Qed.

Lemma index_None a i : ~ (0 <= i < len a) -> index a i = None.
Proof.
  intros Hi. destruct (index a i) eqn:E; [|done].
  apply index_Some in E. lia.
Qed.

Lemma index_last a x : index (a ++ [x]) (len (a ++ [x]) - 1) = Some x.
Proof.
  unfold index, len. rewrite length_app. simpl.
  destruct (Z.leb_spec 0 (Z.of_nat (length a + 1) - 1)); [|lia].
  replace (Z.to_nat (Z.of_nat (length a + 1) - 1)) with (length a) by lia.
  by apply list_lookup_middle.
Qed.

End Arrays.

Lemma len_shape b b' : shape b = shape b' -> len b = len b'.
Proof.
  unfold shape, len. intros H.
  by rewrite <- (length_fmap length b), H, length_fmap.
Qed.

Lemma len_rowAt_shape b b' r :
  shape b = shape b' -> len (rowAt b r) = len (rowAt b' r).
Proof.
  unfold shape, rowAt, index, len. intros H.
  destruct (0 <=? r); [|done].
  assert (E : (length <$> b) !! Z.to_nat r = (length <$> b') !! Z.to_nat r)
    by (by rewrite H).
  rewrite !list_lookup_fmap in E.
  destruct (b !! Z.to_nat r), (b' !! Z.to_nat r); cbn in *; simplify_eq; congruence.
Qed.

Lemma shape_setCell b r c v : shape (setCell b r c v) = shape b.
Proof.
  unfold shape, setCell. apply list_eq. intros i.
  rewrite !list_lookup_fmap.
  destruct (decide (i = Z.to_nat r)) as [->|Hne].
  - rewrite list_lookup_alter_eq. destruct (b !! Z.to_nat r); simpl; [|done].
    by rewrite length_insert.
  - by rewrite list_lookup_alter_ne.
Qed.

Lemma inBoard_spec b r c :
  inBoard b r c = true <-> 0 <= r < len b /\ 0 <= c < len (rowAt b r).
Proof. unfold inBoard. rewrite !andb_true_iff. lia. Qed.

Lemma inBoard_shape b b' r c :
  shape b = shape b' -> inBoard b r c = inBoard b' r c.
Proof.
  intros H. unfold inBoard.
  by rewrite (len_shape _ _ H), (len_rowAt_shape _ _ r H).
Qed.

Lemma cellAt_Some b r c v : cellAt b r c = Some v -> inBoard b r c = true.
Proof.
  unfold cellAt. intros Hc. pose proof (index_Some _ _ _ Hc) as Hcol.
  apply inBoard_spec. split; [|done].
  unfold rowAt in *. destruct (index b r) eqn:E.
  - by apply index_Some in E.
  - simpl in *. unfold len in Hcol. simpl in Hcol. lia.
Qed.

Lemma cellAt_is_Some b r c : inBoard b r c = true -> is_Some (cellAt b r c).
Proof. intros [_ Hc]%inBoard_spec. by apply index_is_Some. Qed.

Lemma cellAt_setCell_eq b r c v :
  inBoard b r c = true -> cellAt (setCell b r c v) r c = Some v.
Proof.
  intros [Hr Hc]%inBoard_spec.
  unfold cellAt, rowAt, setCell, index, len in *.
  destruct (Z.leb_spec 0 r); [|lia]. destruct (Z.leb_spec 0 c); [|lia].
  rewrite list_lookup_alter_eq.
  destruct (b !! Z.to_nat r) as [rw|]; simpl in *; [|lia].
  apply list_lookup_insert_eq. lia.
Qed.

Lemma cellAt_setCell_ne b r c v r' c' :
  0 <= r -> 0 <= c -> (r, c) <> (r', c') ->
  cellAt (setCell b r c v) r' c' = cellAt b r' c'.
Proof.
  intros Hr Hc Hne. unfold cellAt, rowAt, setCell, index.
  destruct (Z.leb_spec 0 r'); [|done].
  destruct (decide (r = r')) as [->|Hrr].
  - rewrite list_lookup_alter_eq.
    destruct (b !! Z.to_nat r') as [rw|]; simpl; [|done].
    destruct (Z.leb_spec 0 c'); [|done].
    apply list_lookup_insert_ne. intros E. apply Hne. f_equal. lia.
  - rewrite list_lookup_alter_ne by lia. done.
Qed.

Lemma cellAt_setCell b r c v r' c' :
  inBoard b r c = true ->
  cellAt (setCell b r c v) r' c' =
  if (r =? r') && (c =? c') then Some v else cellAt b r' c'.
Proof.
  intros Hin. pose proof Hin as [Hr Hc]%inBoard_spec.
  destruct (Z.eqb_spec r r') as [<-|Hrr]; simpl.
  - destruct (Z.eqb_spec c c') as [<-|Hcc].
    + by apply cellAt_setCell_eq.
    + apply cellAt_setCell_ne; [lia..|congruence].
  - apply cellAt_setCell_ne; [lia..|congruence].
Qed.

(** ** Clearing old turns *)

Lemma out_of_board b r c :
  (r <? 0) || (r >=? len b) || (c <? 0) || (c >=? len (rowAt b r))
  = negb (inBoard b r c).
Proof.
  unfold inBoard. rewrite !negb_andb, <- !orb_assoc.
  repeat f_equal; lia.
Qed.

Lemma kept_shape n b b' e : shape b = shape b' -> kept n b e = kept n b' e.
Proof. intros H. unfold kept, onBoard. by rewrite (inBoard_shape _ _ _ _ H). Qed.

Lemma cleared_shape n b b' plays r c :
  shape b = shape b' -> cleared n b plays r c = cleared n b' plays r c.
Proof.
  intros H. unfold cleared. induction plays as [|e plays IH]; [done|].
  simpl. rewrite IH. unfold onBoard. by rewrite (inBoard_shape _ _ _ _ H).
Qed.

Lemma clearOldTurns_spec n plays : forall b,
  fst (clearOldTurns n plays b) = List.filter (kept n b) plays /\
  shape (snd (clearOldTurns n plays b)) = shape b /\
  forall r c,
    cellAt (snd (clearOldTurns n plays b)) r c =
    if cleared n b plays r c then Some None else cellAt b r c.
Proof.
  induction plays as [|e plays IH]; intros b; [done|].
  simpl. rewrite out_of_board. unfold kept at 1, cleared, onBoard. simpl.
  fold (cleared n b plays).
  destruct (inBoard b (row e) (col e)) eqn:Hin; simpl.
  - fold (expired n e). destruct (expired n e) eqn:Hexp; simpl.
    + pose proof (shape_setCell b (row e) (col e) None) as Hs.
      destruct (IH (setCell b (row e) (col e) None)) as (Hk & Hsh & Hc).
      rewrite Hk, Hsh, Hs. split_and!; [|done|].
      * apply filter_ext. intros x. by apply kept_shape.
      * intros r c. rewrite Hc, (cleared_shape _ _ _ _ _ _ Hs).
        apply inBoard_spec in Hin.
        unfold at_cell. destruct (Z.eqb_spec (row e) r) as [<-|Hr]; simpl.
        -- destruct (Z.eqb_spec (col e) c) as [<-|Hcc]; simpl.
           ++ rewrite cellAt_setCell_eq by (by apply inBoard_spec).
              by destruct (cleared n b plays _ _).
           ++ rewrite cellAt_setCell_ne by (try lia; congruence). done.
        -- rewrite cellAt_setCell_ne by (try lia; congruence). done.
    + destruct (IH b) as (Hk & Hsh & Hc).
      destruct (clearOldTurns n plays b) as [k b']. simpl in *.
      by rewrite Hk.
  - by apply IH.
Qed.

(** ** The state after an accepted move *)

Lemma expired_entry this r c : expired (turnCount this + 1) (entry this r c) = false.
Proof. unfold expired, entry. simpl. lia. Qed.

Lemma moved_spec this r c :
  isValidCell this r c = true ->
  playHistory (moved this r c) =
    List.filter (kept (turnCount this + 1) (board this)) (playHistory this)
    ++ [entry this r c] /\
  shape (board (moved this r c)) = shape (board this) /\
  (forall r' c',
     cellAt (board (moved this r c)) r' c' =
     if at_cell r' c' (entry this r c) then Some (Some (currentPlayer this))
     else if cleared (turnCount this + 1) (board this) (playHistory this) r' c'
          then Some None
          else cellAt (board this) r' c') /\
  turnCount (moved this r c) = turnCount this + 1 /\
  currentPlayer (moved this r c) = currentPlayer this /\
  boardElement (moved this r c) = boardElement this /\
  winnerTimeoutId (moved this r c) = winnerTimeoutId this.
Proof.
  intros Hv. unfold isValidCell in Hv.
  pose proof Hv as [Hr Hc]%inBoard_spec.
  set (b1 := setCell (board this) r c (Some (currentPlayer this))).
  assert (Hs1 : shape b1 = shape (board this)) by apply shape_setCell.
  destruct (clearOldTurns_spec (turnCount this + 1)
              (playHistory this ++ [entry this r c]) b1) as (Hk & Hsh & Hcell).
  unfold moved, updateBoard, clearOldTurnsFromPlayHistory.
  change (turnCount (record this r c)) with (turnCount this + 1).
  change (playHistory (record this r c))
    with (playHistory this ++ [entry this r c]).
  change (board (record this r c)) with b1.
  destruct (clearOldTurns _ _ b1) as [k b']. simpl in Hk, Hsh, Hcell.
  assert (Hke : kept (turnCount this + 1) b1 (entry this r c) = true).
  { unfold kept, onBoard. rewrite expired_entry, (inBoard_shape _ _ _ _ Hs1).
    simpl. by rewrite Hv. }
  assert (Hk' : k = List.filter (kept (turnCount this + 1) (board this))
                      (playHistory this) ++ [entry this r c]).
  { rewrite Hk, List.filter_app. simpl. rewrite Hke. f_equal.
    apply filter_ext. intros e. by apply kept_shape. }
  cbn [playHistory set_playHistory set_board].
  rewrite Hk', index_last. unfold updateBoardWithPlay.
  cbn [board set_playHistory set_board row col player entry].
  fold (inBoard b' r c).
  rewrite (inBoard_shape b' (board this)) by congruence. rewrite Hv.
  cbn. split_and!; try done.
  - rewrite shape_setCell. congruence.
  - intros r' c'. unfold at_cell. simpl.
    rewrite cellAt_setCell
      by (rewrite (inBoard_shape b' (board this)) by congruence; done).
    destruct ((r =? r') && (c =? c')) eqn:Hat; [done|].
    rewrite Hcell, (cleared_shape _ _ _ _ _ _ Hs1). unfold cleared.
    rewrite existsb_app. simpl.
    rewrite expired_entry, andb_false_r, !orb_false_r.
    fold (cleared (turnCount this + 1) (board this) (playHistory this) r' c').
    destruct (cleared _ _ _ _ _); [done|].
    unfold b1. by rewrite cellAt_setCell, Hat.
Qed.

(** ** The three ways [play] ends *)

Lemma play_invalid w r c :
  isValidCell (game w) r c = false -> play r c w = (Throw InvalidCellError, w).
Proof. intros H. unfold play. by rewrite H. Qed.

Lemma play_taken w r c :
  isValidCell (game w) r c = true ->
  cellAt (board (game w)) r c <> Some None ->
  play r c w = (Throw CellTakenError, w).
Proof.
  intros Hv Hc. unfold play. rewrite Hv. simpl.
  unfold not_null. by rewrite bool_decide_eq_false_2.
Qed.

Lemma board_renderBoard this : board (renderBoard this) = board this.
Proof. reflexivity. Qed.

Lemma checkWin_renderBoard this r c :
  checkWin (renderBoard this) r c = checkWin this r c.
Proof. reflexivity. Qed.

Lemma play_accepted w r c :
  isValidCell (game w) r c = true ->
  cellAt (board (game w)) r c = Some None ->
  play r c w =
  if checkWin (moved (game w) r c) r c then
    (Return (Some (String.append (symbol (currentPlayer (game w))) " wins!")),
     show (currentPlayer (game w))
       {| game := resetBoard (renderBoard (moved (game w) r c));
          window := window w |})
  else
    (Return None,
     {| game := set_currentPlayer (other (currentPlayer (game w)))
                  (renderBoard (moved (game w) r c));
        window := window w |}).
Proof.
  intros Hv Hc. unfold play. rewrite Hv, Hc. simpl negb. cbv iota.
  change (not_null (Some None)) with false. cbv iota.
  fold (moved (game w) r c). rewrite checkWin_renderBoard.
  destruct (moved_spec (game w) r c Hv) as (_ & _ & _ & _ & Hp & _).
  destruct (checkWin (moved (game w) r c) r c).
  - change (currentPlayer (renderBoard (moved (game w) r c)))
      with (currentPlayer (moved (game w) r c)).
    rewrite Hp. unfold show. simpl game. simpl window.
    by destruct (showWinner _ _ _).
  - change (currentPlayer (renderBoard (moved (game w) r c)))
      with (currentPlayer (moved (game w) r c)).
    by rewrite Hp.
Qed.

(** ** The 3 by 3 grid *)

(** An index of the grid is 0, 1 or 2. *)
Ltac grid_index r :=
  let H := fresh in
  assert (H : r = 0 \/ r = 1 \/ r = 2) by lia;
  destruct H as [->|[->| ->]].

Lemma grid3x3_inv b :
  grid3x3 b ->
  exists a0 a1 a2 b0 b1 b2 c0 c1 c2 : Cell,
    b = [[a0; a1; a2]; [b0; b1; b2]; [c0; c1; c2]].
Proof.
  unfold grid3x3, shape. intros H.
  destruct b as [|[|a0 [|a1 [|a2 [|]]]] [|[|b0 [|b1 [|b2 [|]]]] [|[|c0 [|c1 [|c2 [|]]]] [|]]]];
    try discriminate H.
  by exists a0, a1, a2, b0, b1, b2, c0, c1, c2.
Qed.

Lemma grid3x3_inBoard b r c :
  grid3x3 b -> inBoard b r c = true <-> 0 <= r < 3 /\ 0 <= c < 3.
Proof.
  intros (a0&a1&a2&b0&b1&b2&c0&c1&c2&->)%grid3x3_inv.
  rewrite inBoard_spec. change (len [[a0; a1; a2]; [b0; b1; b2]; [c0; c1; c2]]) with 3.
  split.
  - intros [Hr Hc]. split; [done|].
    grid_index r; exact Hc.
  - intros [Hr Hc]. split; [done|].
    grid_index r; exact Hc.
Qed.

Lemma cells_spec r c : (r, c) ∈ cells <-> 0 <= r < 3 /\ 0 <= c < 3.
Proof.
  unfold cells. split.
  - rewrite !elem_of_cons, elem_of_nil. intros H.
    repeat destruct H as [H|H]; try done; injection H as -> ->; lia.
  - intros [Hr Hc].
    grid_index r;
    grid_index c;
    rewrite !elem_of_cons; tauto.
Qed.

Lemma cellAt_empty_board r c :
  0 <= r < 3 -> 0 <= c < 3 -> cellAt empty_board r c = Some None.
Proof. intros Hr Hc. grid_index r; grid_index c; reflexivity. Qed.

Lemma checkWin_grid3x3 this r c :
  grid3x3 (board this) -> 0 <= r < 3 -> 0 <= c < 3 ->
  checkWin this r c =
  match cellAt (board this) r c with
  | Some (Some p) => completes_line (board this) p r c
  | _ => false
  end.
Proof.
  intros (a0&a1&a2&b0&b1&b2&c0&c1&c2&Hb)%grid3x3_inv Hr Hc.
  unfold checkWin, completes_line, owns. rewrite Hb.
  grid_index r;
  grid_index c;
  cbv -[is_player andb orb];
  match goal with |- match ?x with _ => _ end = _ => destruct x as [p|]; [|done] end;
  repeat match goal with
         | |- context [is_player ?x ?q] => destruct (is_player x q)
         end; reflexivity.
Qed.

(** ** The engine fields across the page's other operations *)

Lemma show_engine winner w :
  board (game (show winner w)) = board (game w) /\
  currentPlayer (game (show winner w)) = currentPlayer (game w) /\
  turnCount (game (show winner w)) = turnCount (game w) /\
  playHistory (game (show winner w)) = playHistory (game w).
Proof.
  unfold show, showWinner. by destruct (winnerTimeoutId (game w)).
Qed.

Lemma fire_engine t w :
  board (game (fire t w)) = board (game w) /\
  currentPlayer (game (fire t w)) = currentPlayer (game w) /\
  turnCount (game (fire t w)) = turnCount (game w) /\
  playHistory (game (fire t w)) = playHistory (game w).
Proof.
  unfold fire, winnerTimeout. simpl. by destruct (contains _ _).
Qed.

Lemma grid3x3_moved this r c :
  grid3x3 (board this) -> isValidCell this r c = true ->
  grid3x3 (board (moved this r c)).
Proof.
  intros Hg Hv. destruct (moved_spec this r c Hv) as (_ & Hs & _).
  unfold grid3x3 in *. congruence.
Qed.

Lemma cellAt_moved_played this r c :
  isValidCell this r c = true ->
  cellAt (board (moved this r c)) r c = Some (Some (currentPlayer this)).
Proof.
  intros Hv. destruct (moved_spec this r c Hv) as (_ & _ & Hc & _).
  rewrite Hc. unfold at_cell, entry. simpl. by rewrite !Z.eqb_refl.
Qed.

Lemma checkWin_moved this r c :
  grid3x3 (board this) -> 0 <= r < 3 -> 0 <= c < 3 ->
  checkWin (moved this r c) r c =
  completes_line (board (moved this r c)) (currentPlayer this) r c.
Proof.
  intros Hg Hr Hc.
  assert (Hv : isValidCell this r c = true) by (by apply grid3x3_inBoard).
  rewrite checkWin_grid3x3 by (try done; by apply grid3x3_moved).
  by rewrite cellAt_moved_played.
Qed.

(** ** The invariant of the engine *)

Lemma elem_of_filter_bool {A} (f : A -> bool) (l : list A) x :
  x ∈ List.filter f l <-> x ∈ l /\ f x = true.
Proof. by rewrite !list_elem_of_In, filter_In. Qed.

Lemma StronglySorted_filter_bool {A} (R : relation A) (f : A -> bool) l :
  StronglySorted R l -> StronglySorted R (List.filter f l).
Proof.
  induction 1 as [|x l Hl IH Hx]; simpl; [constructor|].
  destruct (f x); [|done]. constructor; [done|].
  rewrite Forall_forall in *. intros y [Hy _]%elem_of_filter_bool. auto.
Qed.

Lemma mover_next n : mover (n + 1) = other (mover n).
Proof.
  unfold mover. rewrite Z.add_1_r, Z.even_succ, <- Z.negb_even.
  by destruct (Z.even n).
Qed.

Lemma mover_expired n t :
  n - 6 < t -> n + 1 - t >= 6 -> mover t = other (mover n).
Proof.
  intros H1 H2. replace t with (n + 1 - 2 * 3) by lia.
  unfold mover. rewrite Z.even_sub, Z.even_mul. simpl.
  rewrite Z.add_1_r, Z.even_succ, <- Z.negb_even.
  by destruct (Z.even n).
Qed.

Lemma consistent_ext this this' :
  board this' = board this -> currentPlayer this' = currentPlayer this ->
  turnCount this' = turnCount this -> playHistory this' = playHistory this ->
  consistent this -> consistent this'.
Proof.
  intros Hb Hp Ht Hh [].
  constructor; rewrite ?Hb, ?Hp, ?Ht, ?Hh; try done.
  all: intros *; rewrite ?Hb, ?Hp, ?Ht, ?Hh; eauto.
Qed.

Lemma consistent_initial this : initial_state this -> consistent this.
Proof.
  intros (Hb & Hp & Ht & Hh).
  constructor; rewrite ?Hb, ?Hp, ?Ht, ?Hh; try done.
  - intros e He. by apply elem_of_nil in He.
  - intros r c p Hc. exfalso. unfold empty_board in Hc.
    pose proof (cellAt_Some _ _ _ _ Hc) as [Hr Hcc]%inBoard_spec.
    change (len [[None; None; None]; [None; None; None]; [None; None; None]])
      with 3 in Hr.
    grid_index r;
      change (len (rowAt _ _)) with 3 in Hcc;
      grid_index c;
      discriminate Hc.
  - intros e e' He. by apply elem_of_nil in He.
  - constructor.
  - intros e He. by apply elem_of_nil in He.
  - intros e He. by apply elem_of_nil in He.
Qed.

Section Move.

Variables (this : Game) (r c : Z).
Hypothesis Hcons : consistent this.
Hypothesis Hvalid : isValidCell this r c = true.
Hypothesis Hempty : cellAt (board this) r c = Some None.

Lemma old_onBoard e : e ∈ playHistory this -> onBoard (board this) e = true.
Proof. intros He. eapply cellAt_Some. by apply (cons_marks _ Hcons). Qed.

Lemma old_elsewhere e : e ∈ playHistory this -> at_cell r c e = false.
Proof.
  intros He. unfold at_cell.
  destruct (Z.eqb_spec (row e) r) as [Hr|]; [|done].
  destruct (Z.eqb_spec (col e) c) as [Hc|]; [|done].
  pose proof (cons_marks _ Hcons e He) as Hm. rewrite Hr, Hc in Hm. congruence.
Qed.

Lemma cleared_spec r' c' :
  cleared (turnCount this + 1) (board this) (playHistory this) r' c' = true <->
  exists e, e ∈ playHistory this /\ expired (turnCount this + 1) e = true /\
            row e = r' /\ col e = c'.
Proof.
  unfold cleared, at_cell. rewrite existsb_exists. split.
  - intros (e & He%list_elem_of_In & H). exists e.
    rewrite !andb_true_iff in H. destruct H as [[_ Hx] [Hr Hc]].
    split_and!; [done|done|lia|lia].
  - intros (e & He & Hx & Hr & Hc). exists e.
    rewrite (old_onBoard e He), Hx, <- list_elem_of_In. split; [done|].
    simpl. lia.
Qed.

Lemma elem_of_moved e :
  e ∈ playHistory (moved this r c) <->
  (e ∈ playHistory this /\ expired (turnCount this + 1) e = false) \/
  e = entry this r c.
Proof.
  destruct (moved_spec this r c Hvalid) as (-> & _).
  rewrite elem_of_app, list_elem_of_singleton, elem_of_filter_bool.
  unfold kept. split; (intros [[He Hk]|He]; [left|by right]); split; try done.
  - rewrite (old_onBoard e He) in Hk. by destruct (expired _ e).
  - by rewrite (old_onBoard e He), Hk.
Qed.

Lemma cellAt_moved_old e :
  e ∈ playHistory this -> expired (turnCount this + 1) e = false ->
  cellAt (board (moved this r c)) (row e) (col e) = Some (Some (player e)).
Proof.
  intros He Hx. destruct (moved_spec this r c Hvalid) as (_ & _ & -> & _).
  replace (at_cell (row e) (col e) (entry this r c)) with false.
  2:{ pose proof (old_elsewhere e He) as H. unfold at_cell in *. simpl.
      symmetry. rewrite andb_false_iff in *. lia. }
  destruct (cleared _ _ _ _ _) eqn:Hcl.
  - apply cleared_spec in Hcl as (e' & He' & Hx' & Hr & Hc).
    assert (e' = e) as -> by (apply (cons_pos _ Hcons); [done..|unfold pos; congruence]).
    congruence.
  - by apply (cons_marks _ Hcons).
Qed.

Lemma cellAt_moved_expired e :
  e ∈ playHistory this -> expired (turnCount this + 1) e = true ->
  cellAt (board (moved this r c)) (row e) (col e) = Some None.
Proof.
  intros He Hx. destruct (moved_spec this r c Hvalid) as (_ & _ & -> & _).
  replace (at_cell (row e) (col e) (entry this r c)) with false.
  2:{ pose proof (old_elsewhere e He) as H. unfold at_cell in *. simpl.
      symmetry. rewrite andb_false_iff in *. lia. }
  replace (cleared _ _ _ _ _) with true; [done|].
  symmetry. apply cleared_spec. by exists e.
Qed.

Lemma consistent_moved :
  consistent (set_currentPlayer (other (currentPlayer this))
                (renderBoard (moved this r c))).
Proof.
  destruct (moved_spec this r c Hvalid) as (Hh & Hs & Hc & Ht & Hp & _).
  constructor; cbn [board currentPlayer turnCount playHistory
                    set_currentPlayer renderBoard addCellsToBoard
                    set_boardElement].
  - apply grid3x3_moved; [apply Hcons | done].
  - intros e [[He Hx]| ->]%elem_of_moved.
    + by apply cellAt_moved_old.
    + by apply cellAt_moved_played.
  - intros r' c' p. rewrite Hc.
    destruct (at_cell r' c' (entry this r c)) eqn:Hat.
    { intros _. exists (entry this r c). split; [apply elem_of_moved; by right|].
      unfold at_cell in Hat. simpl in *. lia. }
    destruct (cleared _ _ _ _ _) eqn:Hcl; [done|].
    intros (e & He & Hr' & Hc')%(cons_cells _ Hcons).
    exists e. split; [|done]. apply elem_of_moved. left. split; [done|].
    destruct (expired _ e) eqn:Hx; [|done].
    rewrite <- Hcl. symmetry. apply cleared_spec. by exists e.
  - intros e e' [[He Hx]| ->]%elem_of_moved [[He' Hx']| ->]%elem_of_moved Hpos;
      try done.
    + by apply (cons_pos _ Hcons).
    + pose proof (old_elsewhere e He) as H. unfold at_cell, pos in *.
      simpl in Hpos. injection Hpos as Hr' Hc'.
      by rewrite Hr', Hc', !Z.eqb_refl in H.
    + pose proof (old_elsewhere e' He') as H. unfold at_cell, pos in *.
      simpl in Hpos. injection Hpos as Hr' Hc'.
      by rewrite <- Hr', <- Hc', !Z.eqb_refl in H.
  - rewrite Hh. apply StronglySorted_app. split_and!.
    + intros e e' [He _]%elem_of_filter_bool ->%list_elem_of_singleton.
      unfold earlier. simpl. by apply (cons_recent _ Hcons).
    + apply StronglySorted_filter_bool, Hcons.
    + repeat constructor.
  - rewrite Ht. intros e [[He Hx]| ->]%elem_of_moved.
    + pose proof (cons_recent _ Hcons e He). unfold expired in Hx. lia.
    + simpl. lia.
  - intros e [[He Hx]| ->]%elem_of_moved.
    + by apply (cons_player _ Hcons).
    + simpl. apply Hcons.
  - rewrite Ht, mover_next. f_equal. apply Hcons.
Qed.

End Move.

Lemma consistent_play w r c :
  consistent (game w) -> consistent (game (snd (play r c w))).
Proof.
  intros Hcons.
  destruct (isValidCell (game w) r c) eqn:Hv.
  2:{ by rewrite play_invalid. }
  destruct (decide (cellAt (board (game w)) r c = Some None)) as [He|He].
  2:{ by rewrite play_taken. }
  rewrite play_accepted by done.
  destruct (checkWin _ _ _); simpl snd.
  - apply consistent_initial.
    destruct (show_engine (currentPlayer (game w))
                {| game := resetBoard (renderBoard (moved (game w) r c));
                   window := window w |}) as (Hb & Hp & Ht & Hh).
    unfold initial_state. by rewrite Hb, Hp, Ht, Hh.
  - by apply consistent_moved.
Qed.

Lemma consistent_step w w' : step w w' -> consistent (game w) -> consistent (game w').
Proof.
  intros [r c w0|p w0|d w0 _|t w0 _ _] Hcons.
  - by apply consistent_play.
  - destruct (show_engine p w0) as (Hb & Hp & Ht & Hh).
    by apply (consistent_ext (game w0)).
  - done.
  - destruct (fire_engine t w0) as (Hb & Hp & Ht & Hh).
    by apply (consistent_ext (game w0)).
Qed.

Lemma reachable_consistent w : reachable w -> consistent (game w).
Proof.
  induction 1 as [element win _|w w' _ IH Hstep].
  - by apply consistent_initial.
  - by apply (consistent_step w).
Qed.

(** ** Expiry and the win check *)

Lemma grid3x3_record this r c :
  grid3x3 (board this) -> grid3x3 (board (record this r c)).
Proof. unfold grid3x3. simpl. by rewrite shape_setCell. Qed.

Lemma completes_line_ext b b' p r c :
  (forall i j, owns b p i j = owns b' p i j) ->
  completes_line b p r c = completes_line b' p r c.
Proof. intros H. unfold completes_line. by rewrite !H. Qed.

Lemma owns_moved this r c i j :
  consistent this -> isValidCell this r c = true ->
  cellAt (board this) r c = Some None ->
  owns (board (record this r c)) (currentPlayer this) i j =
  owns (board (moved this r c)) (currentPlayer this) i j.
Proof.
  intros Hcons Hv He. unfold owns.
  destruct (moved_spec this r c Hv) as (_ & _ & -> & _).
  change (board (record this r c))
    with (setCell (board this) r c (Some (currentPlayer this))).
  rewrite cellAt_setCell by done. unfold at_cell. simpl.
  destruct ((r =? i) && (c =? j)); [done|].
  destruct (cleared _ _ _ _ _) eqn:Hcl; [|done].
  apply (cleared_spec this Hcons) in Hcl as (e & Hin & Hx & Hre & Hce).
  pose proof (cons_marks _ Hcons e Hin) as Hm. rewrite Hre, Hce in Hm.
  rewrite Hm, (cons_player _ Hcons e Hin), (cons_current _ Hcons).
  pose proof (cons_recent _ Hcons e Hin). unfold expired in Hx.
  rewrite (mover_expired (turnCount this)) by lia.
  unfold is_player. by destruct (mover _).
Qed.

(** C3.  In every reachable world, for a move [play] accepts, the win
    check gives on the board as it is once the old turns were cleared the
    verdict it gives on the board immediately after the mark was placed,
    before any entry is aged out: the clearing done by the same call never
    changes whether the move wins, and the result of [play] is the verdict
    on the board right after the placement. *)
Theorem expiry_keeps_verdict w r c :
  reachable w ->
  0 <= r < 3 -> 0 <= c < 3 ->
  cellAt (board (game w)) r c = Some None ->
  checkWin (updateBoard (record (game w) r c)) r c
    = checkWin (record (game w) r c) r c /\
  fst (play r c w) =
    if checkWin (record (game w) r c) r c
    then Return (Some (String.append (symbol (currentPlayer (game w))) " wins!"))
    else Return None.
Proof.
  intros Hcons%reachable_consistent Hr Hc He.
  pose proof (cons_grid _ Hcons) as Hg.
  assert (Hv : isValidCell (game w) r c = true) by (by apply grid3x3_inBoard).
  assert (Heq : checkWin (updateBoard (record (game w) r c)) r c
                = checkWin (record (game w) r c) r c).
  { fold (moved (game w) r c).
    rewrite !checkWin_grid3x3
      by (try done; by (apply grid3x3_moved || apply grid3x3_record)).
    rewrite cellAt_moved_played by done.
    change (board (record (game w) r c))
      with (setCell (board (game w)) r c (Some (currentPlayer (game w)))).
    rewrite cellAt_setCell_eq by done.
    symmetry. apply completes_line_ext. intros i j.
    exact (owns_moved (game w) r c i j Hcons Hv He). }
  split; [done|].
  rewrite play_accepted by done. fold (moved (game w) r c) in Heq.
  rewrite Heq. destruct (checkWin (record (game w) r c) r c); reflexivity.
Qed.

(** C2.  In every reachable world, once an accepted move is recorded and
    the turn counter incremented, clearing the old turns removes from the
    history every entry whose age [turnCount - turn] is 6 or more and
    empties its cell, and keeps every entry on the board whose age is
    less than 6, with its mark in its cell.  When the move does not win,
    this history and this board are the ones [play] leaves; and whether
    it wins or not, the entries of age 6 or more are out of the history
    [play] leaves and their cells are empty. *)
Theorem old_turns_cleared w r c :
  reachable w ->
  0 <= r < 3 -> 0 <= c < 3 ->
  cellAt (board (game w)) r c = Some None ->
  let before := record (game w) r c in
  let after := updateBoard before in
  let final := game (snd (play r c w)) in
  (forall e, e ∈ playHistory before ->
     (turnCount before - turn e >= 6 ->
        (e ∉ playHistory after) /\
        cellAt (board after) (row e) (col e) = Some None) /\
     (turnCount before - turn e < 6 ->
        inBoard (board before) (row e) (col e) = true ->
        e ∈ playHistory after /\
        cellAt (board after) (row e) (col e) = Some (Some (player e)))) /\
  (checkWin after r c = false ->
     playHistory final = playHistory after /\ board final = board after) /\
  (forall e, e ∈ playHistory before ->
     turnCount before - turn e >= 6 ->
     (e ∉ playHistory final) /\
     cellAt (board final) (row e) (col e) = Some None).
Proof.
  intros Hcons%reachable_consistent Hr Hc He before after final.
  pose proof (cons_grid _ Hcons) as Hg.
  assert (Hv : isValidCell (game w) r c = true) by (by apply grid3x3_inBoard).
  assert (Hin_before : forall e, e ∈ playHistory before <->
            e ∈ playHistory (game w) \/ e = entry (game w) r c).
  { intros e. unfold before. simpl.
    by rewrite elem_of_app, list_elem_of_singleton. }
  assert (Hstep : forall e, e ∈ playHistory before ->
     (turnCount before - turn e >= 6 ->
        (e ∉ playHistory after) /\
        cellAt (board after) (row e) (col e) = Some None) /\
     (turnCount before - turn e < 6 ->
        inBoard (board before) (row e) (col e) = true ->
        e ∈ playHistory after /\
        cellAt (board after) (row e) (col e) = Some (Some (player e)))).
  { intros e [Hin| ->]%Hin_before;
      change (turnCount before) with (turnCount (game w) + 1);
      change after with (moved (game w) r c).
    - split.
      + intros Hold.
        assert (Hx : expired (turnCount (game w) + 1) e = true)
          by (unfold expired; lia).
        split; [|by apply cellAt_moved_expired].
        intros [[_ Hx']| ->]%elem_of_moved; try done; [congruence|].
        by rewrite expired_entry in Hx.
      + intros Hnew _.
        assert (Hx : expired (turnCount (game w) + 1) e = false)
          by (unfold expired; lia).
        split; [|by apply cellAt_moved_old].
        apply elem_of_moved; auto.
    - split.
      + simpl. lia.
      + intros _ _. split; [apply elem_of_moved; auto|].
        by apply cellAt_moved_played. }
  assert (Hfinal : final =
            if checkWin after r c
            then game (show (currentPlayer (game w))
                         {| game := resetBoard (renderBoard after);
                            window := window w |})
            else set_currentPlayer (other (currentPlayer (game w)))
                   (renderBoard after)).
  { unfold final. rewrite play_accepted by done.
    change (moved (game w) r c) with after. by destruct (checkWin after r c). }
  split_and!; [exact Hstep | |].
  - intros Hno. by rewrite Hfinal, Hno.
  - intros e Hin Hold. rewrite Hfinal. destruct (checkWin after r c).
    + destruct (show_engine (currentPlayer (game w))
                  {| game := resetBoard (renderBoard after);
                     window := window w |}) as (-> & _ & _ & ->).
      split; [by intros ?%elem_of_nil|].
      apply Hin_before in Hin as [Hin| ->]; [|simpl in Hold; lia].
      pose proof (old_onBoard _ Hcons e Hin) as Hon.
      apply (grid3x3_inBoard _ _ _ Hg) in Hon as [Hre Hce].
      by apply cellAt_empty_board.
    + by apply Hstep.
Qed.

(** C4.  On a 3 by 3 board, a move at an empty cell [(r, c)] inside the
    board that does not complete a line returns no value, leaves in
    [board[r][c]] the player who was the current player before the call,
    leaves as history the entries [clearOldTurnsFromPlayHistory] keeps
    followed by exactly one new entry (that player, [r], [c], the turn
    count before the call),
    increments the turn count by 1 and passes the turn to the other
    player. *)
Theorem ordinary_move w r c :
  grid3x3 (board (game w)) ->
  0 <= r < 3 -> 0 <= c < 3 ->
  cellAt (board (game w)) r c = Some None ->
  completes_line (board (moved (game w) r c)) (currentPlayer (game w)) r c
    = false ->
  let this := game w in
  let this' := game (snd (play r c w)) in
  fst (play r c w) = Return None /\
  cellAt (board this') r c = Some (Some (currentPlayer this)) /\
  playHistory this' =
    List.filter (kept (turnCount this + 1) (board this)) (playHistory this)
    ++ [{| player := currentPlayer this; row := r; col := c;
           turn := turnCount this |}] /\
  turnCount this' = turnCount this + 1 /\
  currentPlayer this' = other (currentPlayer this).
Proof.
  intros Hg Hr Hc He Hline this this'. subst this this'.
  assert (Hv : isValidCell (game w) r c = true) by (by apply grid3x3_inBoard).
  rewrite (play_accepted w r c Hv He), checkWin_moved, Hline by done.
  destruct (moved_spec (game w) r c Hv) as (Hh & _ & _ & Ht & _).
  simpl. split_and!; try done.
  by apply cellAt_moved_played.
Qed.

(** ** Counting: the board against the history *)

Lemma NoDup_filter_bool {A} (f : A -> bool) (l : list A) :
  NoDup l -> NoDup (List.filter f l).
Proof.
  induction 1 as [|x l Hx Hl IH]; simpl; [constructor|].
  destruct (f x); [|done]. constructor; [|done].
  by intros [? _]%elem_of_filter_bool.
Qed.

Lemma StronglySorted_earlier_NoDup l : StronglySorted earlier l -> NoDup l.
Proof.
  induction 1 as [|x l Hl IH Hx]; constructor; [|done].
  intros Hin. rewrite Forall_forall in Hx. specialize (Hx x Hin).
  unfold earlier in Hx. lia.
Qed.

Lemma NoDup_all_equal {A} (l : list A) x :
  NoDup l -> x ∈ l -> (forall y, y ∈ l -> y = x) -> l = [x].
Proof.
  intros Hnd Hx Hall. destruct l as [|a [|b l]].
  - by apply elem_of_nil in Hx.
  - f_equal. apply Hall. by left.
  - exfalso. apply NoDup_cons in Hnd as [Hab _]. apply Hab.
    rewrite (Hall a), (Hall b); [by left|right; by left|by left].
Qed.

Lemma turns_bounded (l : list Z) lo hi :
  StronglySorted Z.lt l -> (forall x, x ∈ l -> lo < x < hi) ->
  len l <= Z.max 0 (hi - lo - 1).
Proof.
  unfold len. intros Hs. revert lo.
  induction Hs as [|x l Hl IH Hx]; intros lo Hb; simpl length; [lia|].
  assert (lo < x < hi) by (apply Hb; by left).
  specialize (IH x). rewrite Forall_forall in Hx.
  assert (Z.of_nat (length l) <= Z.max 0 (hi - x - 1)).
  { apply IH. intros y Hy. split; [by apply Hx|]. apply Hb. by right. }
  lia.
Qed.

Lemma occupied_grid3x3 b :
  grid3x3 b -> occupied b = length (List.filter (marked b) cells).
Proof.
  intros (a0&a1&a2&b0&b1&b2&c0&c1&c2&->)%grid3x3_inv.
  by destruct a0, a1, a2, b0, b1, b2, c0, c1, c2.
Qed.

Lemma NoDup_cells : NoDup cells.
Proof. apply (bool_decide_unpack (NoDup cells)). by vm_compute. Qed.

Section Counting.

Variable this : Game.
Hypothesis Hcons : consistent this.

Lemma history_NoDup : NoDup (playHistory this).
Proof. apply StronglySorted_earlier_NoDup, Hcons. Qed.

Lemma history_cells : pos <$> playHistory this ≡ₚ List.filter (marked (board this)) cells.
Proof.
  apply NoDup_Permutation.
  - apply NoDup_fmap_2_strong; [|apply history_NoDup].
    intros e e' He He' Hp. by apply (cons_pos _ Hcons).
  - apply NoDup_filter_bool, NoDup_cells.
  - intros [r c]. rewrite list_elem_of_fmap, elem_of_filter_bool, cells_spec.
    unfold marked, pos. simpl. split.
    + intros (e & [= -> ->] & He).
      pose proof (cons_marks _ Hcons e He) as Hm. rewrite Hm. split; [|done].
      apply cellAt_Some in Hm. by apply grid3x3_inBoard in Hm; [|apply Hcons].
    + intros [_ Hm]. destruct (cellAt (board this) r c) as [[p|]|] eqn:Hc; try done.
      apply (cons_cells _ Hcons) in Hc as (e & He & <- & <-). by exists e.
Qed.

Lemma occupied_history : occupied (board this) = length (playHistory this).
Proof.
  rewrite occupied_grid3x3 by apply Hcons.
  by rewrite <- history_cells, length_fmap.
Qed.

Lemma cell_history r c p :
  cellAt (board this) r c = Some (Some p) <->
  exists e, List.filter (at_cell r c) (playHistory this) = [e] /\ player e = p.
Proof.
  split.
  - intros Hc. destruct (cons_cells _ Hcons r c p Hc) as (e & He & Hr & Hcl).
    exists e. split.
    + apply NoDup_all_equal.
      * apply NoDup_filter_bool, history_NoDup.
      * apply elem_of_filter_bool. split; [done|]. unfold at_cell. lia.
      * intros e' [He' Hat]%elem_of_filter_bool.
        apply (cons_pos _ Hcons); [done..|]. unfold at_cell, pos in *.
        f_equal; lia.
    + pose proof (cons_marks _ Hcons e He) as Hm. rewrite Hr, Hcl in Hm. congruence.
  - intros (e & Hf & <-).
    assert (He : e ∈ List.filter (at_cell r c) (playHistory this))
      by (rewrite Hf; by left).
    apply elem_of_filter_bool in He as [He Hat].
    pose proof (cons_marks _ Hcons e He) as Hm. unfold at_cell in Hat.
    replace r with (row e) by lia. replace c with (col e) by lia. done.
Qed.

Lemma history_short : (length (playHistory this) <= 5)%nat.
Proof.
  pose proof (turns_bounded (turn <$> playHistory this)
                (turnCount this - 6) (turnCount this)) as H.
  unfold len in H. rewrite length_fmap in H.
  enough (Z.of_nat (length (playHistory this))
          <= Z.max 0 (turnCount this - (turnCount this - 6) - 1)) by lia.
  apply H.
  - apply (StronglySorted_fmap _ earlier); [done|apply Hcons].
  - intros t (e & -> & He)%list_elem_of_fmap. by apply (cons_recent _ Hcons).
Qed.

End Counting.

(** C9.  After construction and after every call of [play] in a reachable
    world, whatever its outcome, a cell holds the mark of player [p]
    exactly when one and only one history entry has its row and column,
    and that entry's player is [p]; and the number of occupied cells is
    the length of the history. *)
Theorem board_matches_history :
  (forall element, board_agrees (new_Game element)) /\
  (forall w r c, reachable w -> board_agrees (game (snd (play r c w)))).
Proof.
  assert (Hagree : forall this, consistent this -> board_agrees this).
  { intros this Hcons. split.
    - intros r c p. by apply cell_history.
    - by apply occupied_history. }
  split.
  - intros element. by apply Hagree, consistent_initial.
  - intros w r c Hw. by apply Hagree, consistent_play, reachable_consistent.
Qed.

(** C10.  After every call of [play] in a reachable world, every history
    entry's turn is more than [turnCount - 6] and less than [turnCount],
    the turns increase strictly along the history, the history holds at
    most 5 entries and the board at most 5 marks. *)
Theorem fading_memory_bounded w r c :
  reachable w ->
  let this := game (snd (play r c w)) in
  (forall e, e ∈ playHistory this ->
     turnCount this - 6 < turn e < turnCount this) /\
  StronglySorted Z.lt (turn <$> playHistory this) /\
  (length (playHistory this) <= 5)%nat /\
  (occupied (board this) <= 5)%nat.
Proof.
  intros Hw this.
  assert (Hcons : consistent this)
    by (by apply consistent_play, reachable_consistent).
  split_and!.
  - apply Hcons.
  - apply (StronglySorted_fmap _ earlier); [done|apply Hcons].
  - by apply history_short.
  - rewrite occupied_history by done. by apply history_short.
Qed.

(** ** Construction, rejected moves, winning and ordinary moves *)

(** C7.  A freshly constructed engine is in the canonical initial state:
    the board is a 3 by 3 grid whose cells are all empty, the current
    player is X, the turn count is 0 and the history is empty. *)
Theorem new_Game_initial element :
  board (new_Game element) =
    [[None; None; None]; [None; None; None]; [None; None; None]] /\
  currentPlayer (new_Game element) = X /\
  turnCount (new_Game element) = 0 /\
  playHistory (new_Game element) = [].
Proof. done. Qed.

(** X16.  On a 3 by 3 board, [play] at integer coordinates with a row or
    a column outside [0, 3) throws the invalid-cell error and changes
    nothing: the world after the call is the world before it. *)
Theorem play_outside_throws w r c :
  grid3x3 (board (game w)) ->
  ~ (0 <= r < 3 /\ 0 <= c < 3) ->
  play r c w = (Throw InvalidCellError, w).
Proof.
  intros Hg Hout. apply play_invalid.
  destruct (isValidCell (game w) r c) eqn:Hv; [|done].
  by apply grid3x3_inBoard in Hv.
Qed.

Lemma play_outside_throws_witness :
  grid3x3 (board (game fresh_world)) /\
  ~ (0 <= 3 < 3 /\ 0 <= 3 < 3) /\
  play 3 3 fresh_world = (Throw InvalidCellError, fresh_world).
Proof.
  split_and!; [reflexivity | lia |].
  apply play_outside_throws; [reflexivity | lia].
Defined.

(** C6.  On a 3 by 3 board, [play] at a cell inside the board that holds a
    player's mark throws the cell-taken error and changes nothing. *)
Theorem play_taken_throws w r c p :
  grid3x3 (board (game w)) ->
  0 <= r < 3 -> 0 <= c < 3 ->
  cellAt (board (game w)) r c = Some (Some p) ->
  play r c w = (Throw CellTakenError, w).
Proof.
  intros Hg Hr Hc Hp. apply play_taken.
  - by apply grid3x3_inBoard.
  - by rewrite Hp.
Qed.

Lemma play_taken_throws_witness :
  let w := plays [(0, 0)] fresh_world in
  cellAt (board (game w)) 0 0 = Some (Some X) /\
  play 0 0 w = (Throw CellTakenError, w).
Proof.
  intros w. split; [reflexivity|].
  apply (play_taken_throws w 0 0 X); [reflexivity | lia | lia | reflexivity].
Defined.

(** C1.  An accepted move after which the played cell lies on a line --
    its row, its column, the main diagonal when [r = c], the anti-diagonal
    when [r + c = 2] -- that the mover occupies entirely returns
    "<player> wins!" and leaves the engine in the initial state.  In
    particular the moves (0,0), (1,0), (0,1), (1,1), (0,2) on a fresh
    engine end with "X wins!" and the initial state. *)
Theorem winning_move_resets :
  (forall w r c,
     grid3x3 (board (game w)) ->
     0 <= r < 3 -> 0 <= c < 3 ->
     cellAt (board (game w)) r c = Some None ->
     completes_line (board (moved (game w) r c)) (currentPlayer (game w)) r c
       = true ->
     fst (play r c w)
       = Return (Some (String.append (symbol (currentPlayer (game w))) " wins!")) /\
     initial_state (game (snd (play r c w)))) /\
  (forall element win,
     let w := plays [(0, 0); (1, 0); (0, 1); (1, 1)]
                {| game := new_Game element; window := win |} in
     fst (play 0 2 w) = Return (Some "X wins!"%string) /\
     initial_state (game (snd (play 0 2 w)))).
Proof.
  split.
  - intros w r c Hg Hr Hc He Hline.
    assert (Hv : isValidCell (game w) r c = true) by (by apply grid3x3_inBoard).
    rewrite (play_accepted w r c Hv He), checkWin_moved, Hline by done.
    split; [done|]. simpl snd.
    destruct (show_engine (currentPlayer (game w))
                {| game := resetBoard (renderBoard (moved (game w) r c));
                   window := window w |}) as (Hb & Hp & Ht & Hh).
    unfold initial_state. by rewrite Hb, Hp, Ht, Hh.
  - intros element win. by vm_compute.
Qed.

Lemma winning_move_resets_witness :
  let w := plays [(0, 0); (1, 0); (0, 1); (1, 1)] fresh_world in
  fst (play 0 2 w) = Return (Some "X wins!"%string) /\
  initial_state (game (snd (play 0 2 w))).
Proof.
  intros w.
  apply (proj1 winning_move_resets w 0 2);
    [reflexivity | lia | lia | reflexivity | reflexivity].
Defined.

(** ** The banner's removal timer *)

Lemma show_timers winner w :
  one_timer w ->
  timers (window (show winner w)) = [scheduled (window w)] /\
  winnerTimeoutId (game (show winner w)) = Some (nextHandle (window w)) /\
  nextHandle (window (show winner w)) = nextHandle (window w) + 1.
Proof.
  unfold one_timer, show, showWinner, scheduled.
  destruct (winnerTimeoutId (game w)) as [id|],
           (timers (window w)) as [|t [|t' l]] eqn:Ht; try done.
  - intros [<- _]. simpl. rewrite Ht. simpl. by rewrite Z.eqb_refl.
  - intros _. simpl. by rewrite Ht.
Qed.

Lemma one_timer_show winner w : one_timer w -> one_timer (show winner w).
Proof.
  intros (Ht & Hid & Hn)%(show_timers winner).
  unfold one_timer. rewrite Ht, Hid, Hn. simpl. lia.
Qed.

Lemma one_timer_ext w w' :
  winnerTimeoutId (game w') = winnerTimeoutId (game w) ->
  window w' = window w ->
  one_timer w -> one_timer w'.
Proof. unfold one_timer. by intros -> ->. Qed.

Lemma one_timer_play w r c : one_timer w -> one_timer (snd (play r c w)).
Proof.
  intros Hone.
  destruct (isValidCell (game w) r c) eqn:Hv.
  2:{ by rewrite play_invalid. }
  destruct (decide (cellAt (board (game w)) r c = Some None)) as [He|He].
  2:{ by rewrite play_taken. }
  rewrite play_accepted by done.
  destruct (moved_spec (game w) r c Hv) as (_ & _ & _ & _ & _ & _ & Hid).
  destruct (checkWin _ _ _); simpl snd.
  - apply one_timer_show. by apply (one_timer_ext w).
  - by apply (one_timer_ext w).
Qed.

Lemma one_timer_fire t w :
  t ∈ timers (window w) -> one_timer w -> one_timer (fire t w).
Proof.
  unfold one_timer, fire, winnerTimeout. intros Hin.
  destruct (winnerTimeoutId (game w)) as [id|],
           (timers (window w)) as [|t0 [|t' l]] eqn:Ht; try done.
  intros _. apply list_elem_of_singleton in Hin as ->.
  simpl. by rewrite Z.eqb_refl.
Qed.

Lemma fire_timers t w :
  one_timer w -> t ∈ timers (window w) -> timers (window (fire t w)) = [].
Proof.
  unfold one_timer, fire. intros Hone Hin.
  destruct (winnerTimeoutId (game w)), (timers (window w)) as [|t0 [|t' l]] eqn:Ht;
    try done.
  apply list_elem_of_singleton in Hin as ->.
  simpl. by rewrite Z.eqb_refl.
Qed.

Lemma one_timer_step w w' : step w w' -> one_timer w -> one_timer w'.
Proof.
  intros [r c w0|p w0|d w0 _|t w0 Hin _] Hone.
  - by apply one_timer_play.
  - by apply one_timer_show.
  - done.
  - by apply one_timer_fire.
Qed.

Lemma reachable_one_timer w : reachable w -> one_timer w.
Proof.
  induction 1 as [element win Hnone|w w' _ IH Hstep].
  - unfold one_timer. simpl. by rewrite Hnone.
  - by apply (one_timer_step w).
Qed.

Lemma play_win_timers w r c message :
  one_timer w ->
  fst (play r c w) = Return (Some message) ->
  timers (window (snd (play r c w))) = [scheduled (window w)].
Proof.
  intros Hone.
  destruct (isValidCell (game w) r c) eqn:Hv.
  2:{ by rewrite play_invalid. }
  destruct (decide (cellAt (board (game w)) r c = Some None)) as [He|He].
  2:{ by rewrite play_taken. }
  rewrite play_accepted by done.
  destruct (moved_spec (game w) r c Hv) as (_ & _ & _ & _ & _ & _ & Hid).
  destruct (checkWin _ _ _); [|done]. intros _. simpl snd.
  apply (show_timers (currentPlayer (game w))
           {| game := resetBoard (renderBoard (moved (game w) r c));
              window := window w |}).
  by apply (one_timer_ext w).
Qed.

(** C8.  In every reachable world at most one removal timeout of the
    banner is pending.  Showing a winner, by a winning [play] or by a
    call of [showWinner], leaves exactly one pending timeout, the one it
    has just scheduled, single-shot and due 2000 ms later: a timeout that
    was pending before has been cancelled, and is not the new one.  A
    timeout that fires leaves none pending. *)
Theorem one_banner_timer w :
  reachable w ->
  (length (timers (window w)) <= 1)%nat /\
  (forall winner,
     timers (window (show winner w)) =
       [{| handle := nextHandle (window w);
           due := now (window w) + 2000;
           banner := nextElement (window w) |}] /\
     forall t, t ∈ timers (window w) ->
       handle t ∉ handle <$> timers (window (show winner w))) /\
  (forall r c message,
     fst (play r c w) = Return (Some message) ->
     timers (window (snd (play r c w))) =
       [{| handle := nextHandle (window w);
           due := now (window w) + 2000;
           banner := nextElement (window w) |}]) /\
  (forall t, t ∈ timers (window w) -> timers (window (fire t w)) = []).
Proof.
  intros Hone%reachable_one_timer. split_and!.
  - unfold one_timer in Hone.
    destruct (winnerTimeoutId (game w)), (timers (window w)) as [|t [|t' l]];
      simpl; try done; lia.
  - intros winner. destruct (show_timers winner w Hone) as (Ht & _).
    split; [done|]. rewrite Ht. intros t Hin. simpl.
    rewrite list_elem_of_singleton. unfold one_timer in Hone.
    destruct (winnerTimeoutId (game w)), (timers (window w)) as [|t0 [|t' l]];
      try done.
    + apply list_elem_of_singleton in Hin as ->. simpl. lia.
    + by apply elem_of_nil in Hin.
  - intros r c message. by apply play_win_timers.
  - intros t Hin. by apply fire_timers.
Qed.

(** ** The properties at concrete games *)

Lemma reachable_plays moves : forall w, reachable w -> reachable (plays moves w).
Proof.
  induction moves as [|[r c] moves IH]; intros w Hw; [done|].
  apply IH. eapply reachable_step; [done|]. apply step_play.
Qed.

Lemma reachable_fresh : reachable fresh_world.
Proof. by apply reachable_load. Qed.

Lemma expiry_keeps_verdict_witness :
  reachable six_moves /\
  cellAt (board (game six_moves)) 2 0 = Some None /\
  fst (play 2 0 six_moves) = Return (Some "X wins!"%string) /\
  checkWin (updateBoard (record (game six_moves) 2 0)) 2 0
    = checkWin (record (game six_moves) 2 0) 2 0 /\
  fst (play 2 0 six_moves) =
    if checkWin (record (game six_moves) 2 0) 2 0
    then Return (Some (String.append
                         (symbol (currentPlayer (game six_moves))) " wins!"))
    else Return None.
Proof.
  assert (Hw : reachable six_moves)
    by (apply reachable_plays, reachable_plays, reachable_fresh).
  assert (He : cellAt (board (game six_moves)) 2 0 = Some None)
    by (vm_compute; reflexivity).
  split_and!; [exact Hw | exact He | vm_compute; reflexivity | |].
  all: apply (expiry_keeps_verdict six_moves 2 0 Hw); [lia | lia | exact He].
Defined.

Lemma old_turns_cleared_witness :
  let after := updateBoard (record (game five_moves) 1 2) in
  reachable five_moves /\
  cellAt (board (game five_moves)) 1 2 = Some None /\
  ({| player := X; row := 0; col := 0; turn := 0 |} ∉ playHistory after) /\
  cellAt (board after) 0 0 = Some None /\
  {| player := O; row := 0; col := 1; turn := 1 |} ∈ playHistory after /\
  cellAt (board after) 0 1 = Some (Some O).
Proof.
  intros after.
  assert (Hw : reachable five_moves) by apply reachable_plays, reachable_fresh.
  assert (He : cellAt (board (game five_moves)) 1 2 = Some None)
    by (vm_compute; reflexivity).
  destruct (old_turns_cleared five_moves 1 2 Hw) as [Hall _];
    [lia | lia | exact He |].
  destruct (Hall {| player := X; row := 0; col := 0; turn := 0 |}) as [Hold _];
    [vm_compute; by left|].
  destruct (Hall {| player := O; row := 0; col := 1; turn := 1 |}) as [_ Hnew];
    [vm_compute; right; by left|].
  destruct Hold as [H1 H2]; [vm_compute; discriminate|].
  destruct Hnew as [H3 H4];
    [vm_compute; reflexivity | vm_compute; reflexivity |].
  split_and!; [exact Hw | exact He | exact H1 | exact H2 | exact H3 | exact H4].
Defined.

Lemma ordinary_move_witness :
  let this := game fresh_world in
  let this' := game (snd (play 0 0 fresh_world)) in
  fst (play 0 0 fresh_world) = Return None /\
  cellAt (board this') 0 0 = Some (Some (currentPlayer this)) /\
  playHistory this' =
    List.filter (kept (turnCount this + 1) (board this)) (playHistory this)
    ++ [{| player := currentPlayer this; row := 0; col := 0;
           turn := turnCount this |}] /\
  turnCount this' = turnCount this + 1 /\
  currentPlayer this' = other (currentPlayer this).
Proof.
  apply (ordinary_move fresh_world 0 0);
    [vm_compute; reflexivity | lia | lia
    | vm_compute; reflexivity | vm_compute; reflexivity].
Defined.

Lemma board_matches_history_witness :
  reachable five_moves /\ board_agrees (game (snd (play 1 2 five_moves))).
Proof.
  assert (Hw : reachable five_moves) by apply reachable_plays, reachable_fresh.
  split; [exact Hw|].
  exact (proj2 board_matches_history five_moves 1 2 Hw).
Defined.

Lemma fading_memory_bounded_witness :
  let this := game (snd (play 1 2 five_moves)) in
  reachable five_moves /\
  (length (playHistory this) <= 5)%nat /\
  (occupied (board this) <= 5)%nat.
Proof.
  intros this.
  assert (Hw : reachable five_moves) by apply reachable_plays, reachable_fresh.
  destruct (fading_memory_bounded five_moves 1 2 Hw) as (_ & _ & Hh & Hb).
  split_and!; [exact Hw | exact Hh | exact Hb].
Defined.

Lemma one_banner_timer_witness :
  reachable after_win /\
  (length (timers (window after_win)) <= 1)%nat /\
  timers (window (show O after_win)) =
    [{| handle := nextHandle (window after_win);
        due := now (window after_win) + 2000;
        banner := nextElement (window after_win) |}].
Proof.
  assert (Hw : reachable after_win) by apply reachable_plays, reachable_fresh.
  destruct (one_banner_timer after_win Hw) as (Hlen & Hshow & _).
  split_and!; [exact Hw | exact Hlen | exact (proj1 (Hshow O))].
Defined.

(** The timers at work: the banner of a first win is still up when a
    second winner is shown; its timeout is cancelled and replaced. *)
Example banner_replaced :
  timers (window after_win) = [{| handle := 1; due := 2000; banner := 0 |}] /\
  timers (window (show O (advance 500 after_win)))
    = [{| handle := 2; due := 2500; banner := 1 |}].
Proof. split; vm_compute; reflexivity. Qed.

(** The test of the repository: seven moves in row-major order end with
    an empty history, because the seventh completes the anti-diagonal once
    the first two moves have expired. *)
Example seven_moves_reset :
  fst (play 2 0 six_moves) = Return (Some "X wins!"%string) /\
  playHistory (game (snd (play 2 0 six_moves))) = [] /\
  playHistory (game six_moves) =
    [{| player := O; row := 0; col := 1; turn := 1 |};
     {| player := X; row := 0; col := 2; turn := 2 |};
     {| player := O; row := 1; col := 0; turn := 3 |};
     {| player := X; row := 1; col := 1; turn := 4 |};
     {| player := O; row := 1; col := 2; turn := 5 |}].
Proof. split_and!; vm_compute; reflexivity. Qed.

(** Reachability matters for the verdict: in a state written by hand the
    old turn that is cleared can be the mover's own, and the line that
    was complete when the mark was placed is broken when it is checked. *)
Example verdict_of_forged_world :
  checkWin (record (game forged_world) 0 2) 0 2 = true /\
  checkWin (updateBoard (record (game forged_world) 0 2)) 0 2 = false /\
  fst (play 0 2 forged_world) = Return None.
Proof. split_and!; vm_compute; reflexivity. Qed.

(** * Further properties *)

(** ** Clearing old turns, in any state *)

Lemma filter_all_true {A} (f : A -> bool) (l : list A) :
  (forall x, x ∈ l -> f x = true) -> List.filter f l = l.
Proof.
  induction l as [|x l IH]; intros H; [done|]. simpl.
  rewrite (H x) by (by left). f_equal. apply IH. intros y Hy. apply H. by right.
Qed.

Lemma clearOldTurns_fixed n plays : forall b,
  (forall e, e ∈ plays -> kept n b e = true) ->
  clearOldTurns n plays b = (plays, b).
Proof.
  induction plays as [|e plays IH]; intros b H; [done|].
  simpl. rewrite out_of_board.
  pose proof (H e ltac:(by left)) as He. unfold kept, onBoard in He.
  apply andb_true_iff in He as [Hon Hx]. rewrite Hon. simpl.
  fold (expired n e). apply negb_true_iff in Hx. rewrite Hx.
  rewrite IH; [done|]. intros e' He'. apply H. by right.
Qed.

(** X1.  In any state, [clearOldTurnsFromPlayHistory] keeps, in order,
    exactly the entries that lie on the board and are less than 6 turns
    old; it empties the cells of the entries on the board that are 6 or
    more turns old and changes no other cell, so an entry off the board is
    dropped without any cell being touched; the dimensions of the board,
    the turn count and the current player are unchanged. *)
Theorem clearing_old_turns this :
  let this' := clearOldTurnsFromPlayHistory this in
  playHistory this' =
    List.filter (fun e => inBoard (board this) (row e) (col e)
                          && negb (turnCount this - turn e >=? 6))
                (playHistory this) /\
  (forall r c,
     cellAt (board this') r c =
     if existsb (fun e => inBoard (board this) (row e) (col e)
                          && (turnCount this - turn e >=? 6)
                          && ((row e =? r) && (col e =? c)))
                (playHistory this)
     then Some None
     else cellAt (board this) r c) /\
  shape (board this') = shape (board this) /\
  turnCount this' = turnCount this /\
  currentPlayer this' = currentPlayer this.
Proof.
  unfold clearOldTurnsFromPlayHistory.
  destruct (clearOldTurns_spec (turnCount this) (playHistory this) (board this))
    as (Hk & Hs & Hc).
  destruct (clearOldTurns _ _ _) as [k b]. simpl in *. by subst k.
Qed.

(** X2.  Clearing the old turns twice is clearing them once. *)
Theorem clearing_idempotent this :
  clearOldTurnsFromPlayHistory (clearOldTurnsFromPlayHistory this)
  = clearOldTurnsFromPlayHistory this.
Proof.
  unfold clearOldTurnsFromPlayHistory at 2 3.
  destruct (clearOldTurns_spec (turnCount this) (playHistory this) (board this))
    as (Hk & Hs & _).
  destruct (clearOldTurns _ _ _) as [k b]. simpl in Hk, Hs.
  unfold clearOldTurnsFromPlayHistory. simpl.
  rewrite clearOldTurns_fixed; [done|].
  intros e He. rewrite Hk in He. apply elem_of_filter_bool in He as [_ He].
  by rewrite (kept_shape _ _ _ _ Hs).
Qed.

(** ** The win check and the lines of the board *)

(** X3.  On a 3 by 3 board [checkWin] answers true for a cell of the grid
    exactly when the cell holds a mark and that player occupies the whole
    row, the whole column, or a whole diagonal through the cell; for an
    empty cell it answers false. *)
Theorem checkWin_true_iff this r c :
  grid3x3 (board this) -> 0 <= r < 3 -> 0 <= c < 3 ->
  (checkWin this r c = true <->
   exists p, cellAt (board this) r c = Some (Some p) /\
             completes_line (board this) p r c = true) /\
  (cellAt (board this) r c = Some None -> checkWin this r c = false).
Proof.
  intros Hg Hr Hc. rewrite checkWin_grid3x3 by done. split.
  - destruct (cellAt (board this) r c) as [[p|]|]; split; try done.
    + intros H. by exists p.
    + by intros (q & [= ->] & H).
    + by intros (q & ? & _).
    + by intros (q & ? & _).
  - by intros ->.
Qed.

Lemma checkWin_true_iff_witness :
  checkWin (game (plays [(0, 0); (1, 0); (0, 1); (1, 1)] fresh_world)) 0 1
    = false /\
  (checkWin (record (game (plays [(0, 0); (1, 0); (0, 1); (1, 1)] fresh_world))
               0 2) 0 2 = true <->
   exists p,
     cellAt (board (record (game (plays [(0, 0); (1, 0); (0, 1); (1, 1)]
                                    fresh_world)) 0 2)) 0 2
       = Some (Some p) /\
     completes_line
       (board (record (game (plays [(0, 0); (1, 0); (0, 1); (1, 1)]
                               fresh_world)) 0 2)) p 0 2 = true).
Proof.
  split; [vm_compute; reflexivity|].
  apply (checkWin_true_iff
           (record (game (plays [(0, 0); (1, 0); (0, 1); (1, 1)] fresh_world))
              0 2) 0 2);
    [vm_compute; reflexivity | lia | lia].
Defined.

Lemma completes_line_lines b p r c :
  0 <= r < 3 -> 0 <= c < 3 ->
  completes_line b p r c =
  existsb (fun l => existsb (fun rc => (fst rc =? r) && (snd rc =? c)) l
                    && owns_line b p l) lines.
Proof.
  intros Hr Hc. unfold completes_line, lines, owns_line.
  grid_index r; grid_index c; cbn -[owns];
    repeat match goal with
           | |- context [owns b p ?i ?j] => destruct (owns b p i j)
           end; reflexivity.
Qed.

Lemma has_line_spec b p :
  has_line b p = true <->
  exists l, l ∈ lines /\ forall r c, (r, c) ∈ l -> owns b p r c = true.
Proof.
  unfold has_line, owns_line. rewrite existsb_exists. split.
  - intros (l & Hl%list_elem_of_In & H). exists l. split; [done|].
    intros r c Hrc%list_elem_of_In. rewrite forallb_forall in H.
    exact (H (r, c) Hrc).
  - intros (l & Hl & H). exists l. rewrite <- list_elem_of_In. split; [done|].
    apply forallb_forall. intros [r c] Hrc%list_elem_of_In. by apply H.
Qed.

Lemma lines_in_grid l r c : l ∈ lines -> (r, c) ∈ l -> 0 <= r < 3 /\ 0 <= c < 3.
Proof.
  unfold lines. rewrite !elem_of_cons, elem_of_nil. intros H.
  repeat destruct H as [H|H]; try done; subst l;
    rewrite !elem_of_cons, elem_of_nil; intros Hrc;
    repeat destruct Hrc as [Hrc|Hrc]; try done; injection Hrc as -> ->; lia.
Qed.

Lemma completes_line_has_line b p r c :
  0 <= r < 3 -> 0 <= c < 3 ->
  completes_line b p r c = true -> has_line b p = true.
Proof.
  intros Hr Hc. rewrite completes_line_lines by done.
  unfold has_line. rewrite !existsb_exists.
  intros (l & Hl & [_ H]%andb_true_iff). by exists l.
Qed.

Lemma has_line_moved this r c q :
  isValidCell this r c = true -> 0 <= r < 3 -> 0 <= c < 3 ->
  has_line (board this) q = false ->
  completes_line (board (moved this r c)) (currentPlayer this) r c = false ->
  has_line (board (moved this r c)) q = false.
Proof.
  intros Hv Hr Hc Hold Hnew.
  destruct (has_line (board (moved this r c)) q) eqn:Hl; [|done]. exfalso.
  apply has_line_spec in Hl as (l & Hl & Hown).
  destruct (moved_spec this r c Hv) as (_ & _ & Hcell & _).
  destruct (decide ((r, c) ∈ l)) as [Hin|Hout].
  - pose proof (Hown r c Hin) as Hq. unfold owns in Hq.
    rewrite cellAt_moved_played in Hq by done.
    unfold is_player in Hq. apply bool_decide_eq_true in Hq.
    injection Hq as <-.
    rewrite completes_line_lines in Hnew by done.
    apply not_true_iff_false in Hnew. apply Hnew.
    apply existsb_exists. exists l. rewrite <- list_elem_of_In.
    split; [done|]. apply andb_true_iff. split.
    + apply existsb_exists. exists (r, c). rewrite <- list_elem_of_In.
      split; [done|]. simpl. by rewrite !Z.eqb_refl.
    + apply forallb_forall. intros [i j] Hij%list_elem_of_In. by apply Hown.
  - apply not_true_iff_false in Hold. apply Hold.
    apply has_line_spec. exists l. split; [done|].
    intros i j Hij. pose proof (Hown i j Hij) as Hq. unfold owns in *.
    rewrite Hcell in Hq. unfold at_cell in Hq. simpl in Hq.
    destruct ((r =? i) && (c =? j)) eqn:Hat.
    { exfalso. apply Hout. apply andb_true_iff in Hat as [Hi Hj].
      replace r with i by lia. by replace c with j by lia. }
    by destruct (cleared _ _ _ _ _).
Qed.

Lemma has_line_empty_board p : has_line empty_board p = false.
Proof. by destruct p. Qed.

Lemma no_line_step w w' :
  step w w' -> consistent (game w) ->
  (forall p, has_line (board (game w)) p = false) ->
  forall p, has_line (board (game w')) p = false.
Proof.
  intros [r c w0|winner w0|d w0 _|t w0 _ _] Hcons Hno p.
  - destruct (isValidCell (game w0) r c) eqn:Hv.
    2:{ by rewrite play_invalid. }
    destruct (decide (cellAt (board (game w0)) r c = Some None)) as [He|He].
    2:{ by rewrite play_taken. }
    pose proof (cons_grid _ Hcons) as Hg.
    pose proof Hv as [Hr Hc]%(grid3x3_inBoard _ r c Hg).
    rewrite play_accepted, checkWin_moved by done.
    destruct (completes_line _ _ _ _) eqn:Hline; simpl snd.
    + destruct (show_engine (currentPlayer (game w0))
                  {| game := resetBoard (renderBoard (moved (game w0) r c));
                     window := window w0 |}) as (-> & _).
      apply has_line_empty_board.
    + by apply has_line_moved.
  - destruct (show_engine winner w0) as (-> & _). apply Hno.
  - apply Hno.
  - destruct (fire_engine t w0) as (-> & _). apply Hno.
Qed.

(** X4.  In every reachable world no player occupies a whole line of the
    board: a line is detected, and the board reset, by the very move that
    completes it, so the win check of [play], which looks only at the
    lines through the played cell, misses no win; and [checkWin] asked
    about any cell of a game at rest answers false. *)
Theorem no_line_at_rest w :
  reachable w ->
  (forall p, has_line (board (game w)) p = false) /\
  (forall r c, 0 <= r < 3 -> 0 <= c < 3 -> checkWin (game w) r c = false).
Proof.
  intros Hw.
  assert (Hno : forall p, has_line (board (game w)) p = false).
  { induction Hw as [element win _|w w' Hw IH Hstep].
    - intros p. apply has_line_empty_board.
    - apply (no_line_step w); [done|by apply reachable_consistent|done]. }
  split; [done|]. intros r c Hr Hc.
  rewrite checkWin_grid3x3 by (try done; by apply reachable_consistent).
  destruct (cellAt _ r c) as [[p|]|]; try done.
  destruct (completes_line _ p r c) eqn:Hl; [|done].
  apply completes_line_has_line in Hl; [|done..]. by rewrite Hno in Hl.
Qed.

Lemma no_line_at_rest_witness :
  reachable five_moves /\
  (forall p, has_line (board (game five_moves)) p = false) /\
  (forall r c, 0 <= r < 3 -> 0 <= c < 3 -> checkWin (game five_moves) r c = false).
Proof.
  assert (Hw : reachable five_moves) by apply reachable_plays, reachable_fresh.
  split; [exact Hw|]. exact (no_line_at_rest five_moves Hw).
Defined.

(** ** The history is the last moves *)

Lemma turns_cons m (e : PlayHistory) l :
  turn <$> e :: l = seqZ m (len (e :: l)) ->
  turn e = m /\ turn <$> l = seqZ (m + 1) (len l).
Proof.
  unfold len. simpl length. rewrite seqZ_cons by lia.
  replace (Z.pred (Z.of_nat (S (length l)))) with (Z.of_nat (length l)) by lia.
  rewrite fmap_cons. intros [= -> ->]. by rewrite Z.add_1_r.
Qed.

Lemma turns_filter N b l : forall m,
  turn <$> l = seqZ m (len l) ->
  (forall e, e ∈ l -> onBoard b e = true) ->
  turn <$> List.filter (kept N b) l =
  seqZ (Z.max m (N - 5)) (m + len l - Z.max m (N - 5)).
Proof.
  induction l as [|e l IH]; intros m Ht Hon.
  - simpl. rewrite seqZ_nil; [done|]. unfold len. simpl. lia.
  - apply turns_cons in Ht as [He Hl].
    specialize (IH (m + 1) Hl (fun e' H => Hon e' ltac:(by right))).
    cbn [List.filter]. unfold kept at 1. rewrite (Hon e) by (by left).
    cbn [andb]. unfold expired. rewrite He.
    assert (Hlen : len (e :: l) = len l + 1) by (unfold len; simpl; lia).
    assert (Hpos : 0 <= len l) by (unfold len; lia).
    destruct (Z.geb_spec (N - m) 6) as [Hold|Hnew]; cbn [negb].
    + rewrite IH, Hlen. f_equal; lia.
    + rewrite fmap_cons, IH, He, Hlen.
      rewrite (seqZ_cons (Z.max m (N - 5))) by lia. f_equal; [lia|].
      f_equal; lia.
Qed.

Lemma last_moves_ext this this' :
  turnCount this' = turnCount this -> playHistory this' = playHistory this ->
  last_moves this -> last_moves this'.
Proof. unfold last_moves. by intros -> ->. Qed.

Lemma last_moves_moved this r c :
  consistent this -> isValidCell this r c = true ->
  last_moves this -> last_moves (moved this r c).
Proof.
  intros Hcons Hv (H0 & Hlen & Ht).
  destruct (moved_spec this r c Hv) as (Hh & _ & _ & Hn & _).
  pose proof (turns_filter (turnCount this + 1) (board this) (playHistory this)
                _ Ht (old_onBoard this Hcons)) as Hf.
  set (k := List.filter (kept (turnCount this + 1) (board this))
              (playHistory this)) in *.
  assert (Hk : len k = Z.min (turnCount this) 4).
  { unfold len at 1. rewrite <- (length_fmap turn), Hf, length_seqZ. lia. }
  assert (Hlen' : len (playHistory (moved this r c)) = len k + 1).
  { rewrite Hh. unfold len. rewrite length_app. simpl. lia. }
  unfold last_moves. rewrite Hn, Hlen'. split_and!; [lia|lia|].
  rewrite Hh, fmap_app, Hf. simpl.
  rewrite (seqZ_app _ (len k) 1) by lia.
  f_equal; [f_equal; lia|]. rewrite seqZ_cons, seqZ_nil by lia.
  f_equal. lia.
Qed.

Lemma last_moves_initial this : initial_state this -> last_moves this.
Proof. intros (_ & _ & Ht & Hh). unfold last_moves. by rewrite Ht, Hh. Qed.

Lemma last_moves_step w w' :
  step w w' -> consistent (game w) -> last_moves (game w) -> last_moves (game w').
Proof.
  intros [r c w0|winner w0|d w0 _|t w0 _ _] Hcons Hl.
  - destruct (isValidCell (game w0) r c) eqn:Hv.
    2:{ by rewrite play_invalid. }
    destruct (decide (cellAt (board (game w0)) r c = Some None)) as [He|He].
    2:{ by rewrite play_taken. }
    rewrite play_accepted by done.
    destruct (checkWin _ _ _); simpl snd.
    + apply last_moves_initial.
      destruct (show_engine (currentPlayer (game w0))
                  {| game := resetBoard (renderBoard (moved (game w0) r c));
                     window := window w0 |}) as (Hb & Hp & Ht & Hh).
      unfold initial_state. by rewrite Hb, Hp, Ht, Hh.
    + apply (last_moves_ext (moved (game w0) r c)); [done..|].
      by apply last_moves_moved.
  - destruct (show_engine winner w0) as (_ & _ & Ht & Hh).
    by apply (last_moves_ext (game w0)).
  - done.
  - destruct (fire_engine t w0) as (_ & _ & Ht & Hh).
    by apply (last_moves_ext (game w0)).
Qed.

(** X5.  In every reachable world the turn count is not negative and the
    history holds the last [min turnCount 5] moves of the game in the
    order they were played: the turns of its entries are the consecutive
    integers that end at [turnCount - 1]. *)
Theorem history_is_last_moves w :
  reachable w ->
  0 <= turnCount (game w) /\
  len (playHistory (game w)) = Z.min (turnCount (game w)) 5 /\
  turn <$> playHistory (game w) =
    seqZ (turnCount (game w) - len (playHistory (game w)))
         (len (playHistory (game w))).
Proof.
  induction 1 as [element win _|w w' Hw IH Hstep].
  - by apply last_moves_initial.
  - apply (last_moves_step w); [done|by apply reachable_consistent|done].
Qed.

Lemma history_is_last_moves_witness :
  reachable six_moves /\
  0 <= turnCount (game six_moves) /\
  len (playHistory (game six_moves)) = Z.min (turnCount (game six_moves)) 5 /\
  turn <$> playHistory (game six_moves) =
    seqZ (turnCount (game six_moves) - len (playHistory (game six_moves)))
         (len (playHistory (game six_moves))).
Proof.
  assert (Hw : reachable six_moves)
    by (apply reachable_plays, reachable_plays, reachable_fresh).
  split; [exact Hw|]. exact (history_is_last_moves six_moves Hw).
Defined.

(** X6.  The players alternate strictly and X opens every game: in every
    reachable world the current player is X exactly when the turn count is
    even, and every entry of the history is a move of X exactly when its
    turn is even. *)
Theorem players_alternate w :
  reachable w ->
  (currentPlayer (game w) = X <-> Z.even (turnCount (game w)) = true) /\
  (forall e, e ∈ playHistory (game w) ->
     (player e = X <-> Z.even (turn e) = true)).
Proof.
  intros Hcons%reachable_consistent. split.
  - rewrite (cons_current _ Hcons). unfold mover.
    by destruct (Z.even (turnCount (game w))).
  - intros e He. rewrite (cons_player _ Hcons e He). unfold mover.
    by destruct (Z.even (turn e)).
Qed.

Lemma players_alternate_witness :
  reachable five_moves /\
  (currentPlayer (game five_moves) = X <->
   Z.even (turnCount (game five_moves)) = true) /\
  (forall e, e ∈ playHistory (game five_moves) ->
     (player e = X <-> Z.even (turn e) = true)).
Proof.
  assert (Hw : reachable five_moves) by apply reachable_plays, reachable_fresh.
  split; [exact Hw|]. exact (players_alternate five_moves Hw).
Defined.

(** ** A legal move always exists *)

Lemma filter_short {A} (f : A -> bool) (l : list A) :
  (length (List.filter f l) < length l)%nat -> exists x, x ∈ l /\ f x = false.
Proof.
  induction l as [|x l IH]; simpl; [lia|].
  destruct (f x) eqn:Hx; simpl; intros H.
  - destruct IH as (y & Hy & Hf); [lia|]. exists y. split; [by right|done].
  - exists x. split; [by left|done].
Qed.

(** X7.  The board never fills up: in every reachable world at least four
    of the nine cells are empty, and [play] at an empty cell of the grid
    is accepted (it returns, it does not throw). *)
Theorem always_a_legal_move w :
  reachable w ->
  (occupied (board (game w)) <= 5)%nat /\
  (exists r c, 0 <= r < 3 /\ 0 <= c < 3 /\
               cellAt (board (game w)) r c = Some None) /\
  (forall r c, 0 <= r < 3 -> 0 <= c < 3 ->
     cellAt (board (game w)) r c = Some None ->
     exists v, fst (play r c w) = Return v).
Proof.
  intros Hcons%reachable_consistent.
  pose proof (cons_grid _ Hcons) as Hg.
  assert (Hocc : (occupied (board (game w)) <= 5)%nat).
  { rewrite occupied_history by done. by apply history_short. }
  split_and!; [done| |].
  - rewrite occupied_grid3x3 in Hocc by done.
    destruct (filter_short (marked (board (game w))) cells) as ([r c] & Hin & Hm).
    { change (length cells) with 9%nat. lia. }
    apply cells_spec in Hin as [Hr Hc]. exists r, c. split_and!; [lia..|].
    unfold marked in Hm. simpl in Hm.
    destruct (cellAt_is_Some (board (game w)) r c) as [v Hv];
      [by apply grid3x3_inBoard|].
    rewrite Hv in *. by destruct v.
  - intros r c Hr Hc He.
    rewrite play_accepted by (try done; by apply grid3x3_inBoard).
    destruct (checkWin _ _ _); eauto.
Qed.

Lemma always_a_legal_move_witness :
  reachable six_moves /\
  (occupied (board (game six_moves)) <= 5)%nat /\
  (exists r c, 0 <= r < 3 /\ 0 <= c < 3 /\
               cellAt (board (game six_moves)) r c = Some None).
Proof.
  assert (Hw : reachable six_moves)
    by (apply reachable_plays, reachable_plays, reachable_fresh).
  destruct (always_a_legal_move six_moves Hw) as (H1 & H2 & _).
  split_and!; [exact Hw | exact H1 | exact H2].
Defined.

(** ** The game at rest *)

Lemma setCell_same b r c v : cellAt b r c = Some v -> setCell b r c v = b.
Proof.
  intros Hc. pose proof (cellAt_Some _ _ _ _ Hc) as [Hr Hcc]%inBoard_spec.
  unfold setCell, cellAt, rowAt, index in *.
  destruct (Z.leb_spec 0 r); [|lia]. destruct (Z.leb_spec 0 c); [|lia].
  apply list_eq. intros i. destruct (decide (i = Z.to_nat r)) as [->|Hne].
  - rewrite list_lookup_alter_eq.
    destruct (b !! Z.to_nat r) as [rw|]; simpl in *; [|done].
    by rewrite list_insert_id.
  - by rewrite list_lookup_alter_ne.
Qed.

(** X8.  Between two moves [updateBoard] has nothing left to do: in every
    reachable world it returns the game unchanged (no entry is old enough
    to be cleared, and the last move is already on the board). *)
Theorem updateBoard_at_rest w :
  reachable w -> updateBoard (game w) = game w.
Proof.
  intros Hcons%reachable_consistent.
  unfold updateBoard, clearOldTurnsFromPlayHistory.
  rewrite clearOldTurns_fixed.
  2:{ intros e He. unfold kept. rewrite (old_onBoard _ Hcons e He). simpl.
      pose proof (cons_recent _ Hcons e He). unfold expired. lia. }
  assert (Hsame : set_playHistory (playHistory (game w))
                    (set_board (board (game w)) (game w)) = game w)
    by (by destruct (game w)).
  rewrite Hsame.
  destruct (index (playHistory (game w)) _) as [e|] eqn:Hi; [|done].
  assert (He : e ∈ playHistory (game w)).
  { unfold index in Hi. destruct (0 <=? _); [|done].
    by apply list_elem_of_lookup_2 in Hi. }
  pose proof (old_onBoard _ Hcons e He) as Hon. unfold onBoard in Hon.
  unfold updateBoardWithPlay. rewrite Hon.
  rewrite setCell_same by (by apply (cons_marks _ Hcons)).
  by destruct (game w).
Qed.

Lemma updateBoard_at_rest_witness :
  reachable six_moves /\ updateBoard (game six_moves) = game six_moves.
Proof.
  assert (Hw : reachable six_moves)
    by (apply reachable_plays, reachable_plays, reachable_fresh).
  split; [exact Hw|]. exact (updateBoard_at_rest six_moves Hw).
Defined.

(** ** What the page shows *)

Lemma lookup_map {A B} (f : A -> B) (l : list A) (i : nat) :
  map f l !! i = f <$> l !! i.
Proof. revert i. induction l as [|x l IH]; intros [|i]; simpl; auto. Qed.

Lemma index_map {A B} (f : A -> B) (l : list A) (i : Z) :
  index (map f l) i = f <$> index l i.
Proof. unfold index. destruct (0 <=? i); [apply lookup_map|done]. Qed.

Lemma index_imap {A B} (f : nat -> A -> B) (l : list A) (i : Z) :
  index (imap f l) i = f (Z.to_nat i) <$> index l i.
Proof. unfold index. destruct (0 <=? i); [apply list_lookup_imap|done]. Qed.

Lemma index_Z_to_nat {A} (l : list A) (i : Z) x :
  index l i = Some x -> Z.of_nat (Z.to_nat i) = i.
Proof. intros H%index_Some. lia. Qed.

Lemma cellElementAt_renderBoard this r c :
  cellElementAt (boardElement (renderBoard this)) r c =
  (fun cell => processCell this cell r c) <$> cellAt (board this) r c.
Proof.
  unfold cellElementAt, cellAt, rowAt.
  change (boardElement (renderBoard this))
    with (map RowDiv
            (imap (fun rowIndex rw =>
                     imap (fun colIndex cell =>
                             processCell (set_boardElement [] this) cell
                               (Z.of_nat rowIndex) (Z.of_nat colIndex)) rw)
                  (board this))).
  rewrite index_map, index_imap.
  destruct (index (board this) r) as [rw|] eqn:Hr; simpl.
  2:{ unfold index. by destruct (0 <=? c). }
  rewrite index_imap. destruct (index rw c) as [cell|] eqn:Hc; simpl; [|done].
  by rewrite (index_Z_to_nat _ _ _ Hr), (index_Z_to_nat _ _ _ Hc).
Qed.

Lemma processCell_mark this cell r c :
  textContent (processCell this cell r c) = cell /\
  classList (processCell this cell r c) = mark_classes cell.
Proof.
  unfold processCell. destruct (List.find _ _); by destruct cell as [[|]|].
Qed.

Lemma is_banner_renderBoard this :
  List.filter is_banner (boardElement (renderBoard this)) = [].
Proof.
  change (boardElement (renderBoard this))
    with (map RowDiv
            (imap (fun rowIndex rw =>
                     imap (fun colIndex cell =>
                             processCell (set_boardElement [] this) cell
                               (Z.of_nat rowIndex) (Z.of_nat colIndex)) rw)
                  (board this))).
  by induction (imap _ (board this)).
Qed.

(** X9.  [renderBoard] replaces the content of the element by one row per
    row of the board: the cell element in row [r], column [c] shows the
    mark of [board[r][c]] as its text and carries the class of that mark
    beside the class "cell"; outside the board there is no cell element;
    and whatever the element held before, a banner included, is gone. *)
Theorem renderBoard_shows_board this :
  length (boardElement (renderBoard this)) = length (board this) /\
  List.filter is_banner (boardElement (renderBoard this)) = [] /\
  (forall r c,
     match cellAt (board this) r c with
     | Some cell =>
         exists d, cellElementAt (boardElement (renderBoard this)) r c = Some d /\
                   textContent d = cell /\
                   classList d = "cell"%string ::
                     match cell with Some p => [symbol p] | None => [] end
     | None => cellElementAt (boardElement (renderBoard this)) r c = None
     end).
Proof.
  split_and!.
  - change (boardElement (renderBoard this))
      with (map RowDiv
              (imap (fun rowIndex rw =>
                       imap (fun colIndex cell =>
                               processCell (set_boardElement [] this) cell
                                 (Z.of_nat rowIndex) (Z.of_nat colIndex)) rw)
                    (board this))).
    by rewrite length_map, length_imap.
  - apply is_banner_renderBoard.
  - intros r c. rewrite cellElementAt_renderBoard.
    destruct (cellAt (board this) r c) as [cell|]; simpl; [|done].
    exists (processCell this cell r c). split; [done|].
    apply processCell_mark.
Qed.

Lemma renderBoard_ext this this' :
  board this' = board this -> playHistory this' = playHistory this ->
  turnCount this' = turnCount this ->
  boardElement (renderBoard this') = boardElement (renderBoard this).
Proof. destruct this, this'. simpl. by intros -> -> ->. Qed.

Lemma show_page winner w :
  boardElement (game (show winner w)) =
    boardElement (game w) ++
    [WinnerMessage (nextElement (window w))
                   (String.append (symbol winner) " wins!")] /\
  nextElement (window (show winner w)) = nextElement (window w) + 1.
Proof. unfold show, showWinner. by destruct (winnerTimeoutId (game w)). Qed.

Lemma fire_page t w :
  boardElement (game (fire t w)) =
    List.filter (fun n => negb (is_element (banner t) n)) (boardElement (game w)) /\
  nextElement (window (fire t w)) = nextElement (window w).
Proof.
  unfold fire, winnerTimeout, contains. simpl. split; [|done].
  destruct (existsb _ _) eqn:Hex; [done|]. simpl.
  symmetry. apply filter_all_true. intros n Hn%list_elem_of_In.
  apply negb_true_iff. destruct (is_element (banner t) n) eqn:Hel; [|done].
  rewrite <- Hex. symmetry. apply existsb_exists. eauto.
Qed.

Lemma filter_rows element this :
  List.filter (fun n => negb (is_element element n))
              (boardElement (renderBoard this))
  = boardElement (renderBoard this).
Proof.
  change (boardElement (renderBoard this))
    with (map RowDiv
            (imap (fun rowIndex rw =>
                     imap (fun colIndex cell =>
                             processCell (set_boardElement [] this) cell
                               (Z.of_nat rowIndex) (Z.of_nat colIndex)) rw)
                  (board this))).
  induction (imap _ (board this)) as [|x l IH]; [done|]. simpl. by rewrite IH.
Qed.

Lemma Forall_filter_bool {A} (P : A -> Prop) (f : A -> bool) l :
  Forall P l -> Forall P (List.filter f l).
Proof.
  rewrite !Forall_forall. intros H x [Hx _]%elem_of_filter_bool. auto.
Qed.

Lemma created_banner_mono win win' n :
  nextElement win <= nextElement win' ->
  created_banner win n -> created_banner win' n.
Proof. destruct n; simpl; [done|lia]. Qed.

Lemma accepted_result w r c :
  isValidCell (game w) r c = true ->
  cellAt (board (game w)) r c = Some None ->
  fst (play r c w) =
  if checkWin (moved (game w) r c) r c
  then Return (Some (String.append (symbol (currentPlayer (game w))) " wins!"))
  else Return None.
Proof.
  intros Hv He. rewrite play_accepted by done. by destruct (checkWin _ _ _).
Qed.

Lemma accepted_page w r c :
  isValidCell (game w) r c = true ->
  cellAt (board (game w)) r c = Some None ->
  boardElement (game (snd (play r c w))) =
  boardElement (renderBoard (game (snd (play r c w)))) ++
  (if checkWin (moved (game w) r c) r c
   then [WinnerMessage (nextElement (window w))
           (String.append (symbol (currentPlayer (game w))) " wins!")]
   else []).
Proof.
  intros Hv He. rewrite play_accepted by done.
  destruct (checkWin _ _ _); simpl snd.
  - set (w1 := {| game := resetBoard (renderBoard (moved (game w) r c));
                  window := window w |}).
    destruct (show_page (currentPlayer (game w)) w1) as [-> _].
    destruct (show_engine (currentPlayer (game w)) w1) as (Hb & _ & Ht & Hh).
    by rewrite (renderBoard_ext (game w1) (game (show (currentPlayer (game w)) w1))).
  - by rewrite app_nil_r.
Qed.

Lemma accepted_nextElement w r c :
  isValidCell (game w) r c = true ->
  cellAt (board (game w)) r c = Some None ->
  nextElement (window w) <= nextElement (window (snd (play r c w))) /\
  (checkWin (moved (game w) r c) r c = true ->
   nextElement (window w) < nextElement (window (snd (play r c w)))).
Proof.
  intros Hv He. rewrite play_accepted by done.
  destruct (checkWin _ _ _); simpl snd; [|done].
  destruct (show_page (currentPlayer (game w))
              {| game := resetBoard (renderBoard (moved (game w) r c));
                 window := window w |}) as [_ ->]. simpl. lia.
Qed.

(** X10.  After a rejected [play] nothing has changed.  After an accepted
    one the page is the rendering of the new state, followed, only when
    the move wins, by exactly one banner, which carries the message
    [play] returns; so a move played while a banner is up removes the
    banner. *)
Theorem page_after_play w r c :
  match fst (play r c w) with
  | Throw _ => snd (play r c w) = w
  | Return None =>
      boardElement (game (snd (play r c w))) =
      boardElement (renderBoard (game (snd (play r c w))))
  | Return (Some message) =>
      boardElement (game (snd (play r c w))) =
      boardElement (renderBoard (game (snd (play r c w)))) ++
      [WinnerMessage (nextElement (window w)) message]
  end.
Proof.
  destruct (isValidCell (game w) r c) eqn:Hv.
  2:{ by rewrite play_invalid. }
  destruct (decide (cellAt (board (game w)) r c = Some None)) as [He|He].
  2:{ by rewrite play_taken. }
  rewrite (accepted_result w r c Hv He), (accepted_page w r c Hv He).
  destruct (checkWin _ _ _); [done|]. by rewrite app_nil_r.
Qed.

Lemma shows_step w w' :
  step w w' -> (exists banners, shows w banners) -> exists banners, shows w' banners.
Proof.
  unfold shows. intros [r c w0|winner w0|d w0 _|t w0 _ _] (banners & Hpage & Hall).
  - destruct (isValidCell (game w0) r c) eqn:Hv.
    2:{ rewrite play_invalid by done. by exists banners. }
    destruct (decide (cellAt (board (game w0)) r c = Some None)) as [He|He].
    2:{ rewrite play_taken by done. by exists banners. }
    destruct (accepted_nextElement w0 r c Hv He) as [_ Hn].
    eexists. split; [exact (accepted_page w0 r c Hv He)|].
    destruct (checkWin _ _ _); [|constructor].
    apply Forall_singleton. unfold created_banner. by apply Hn.
  - destruct (show_page winner w0) as [Hb Hn].
    destruct (show_engine winner w0) as (Hbd & _ & Ht & Hh).
    exists (banners ++ [WinnerMessage (nextElement (window w0))
                          (String.append (symbol winner) " wins!")]).
    split.
    + rewrite Hb, (renderBoard_ext (game w0) (game (show winner w0)) Hbd Hh Ht).
      rewrite app_assoc. f_equal. exact Hpage.
    + apply Forall_app. split.
      * eapply Forall_impl; [exact Hall|]. intros n.
        apply created_banner_mono. lia.
      * apply Forall_singleton. unfold created_banner. lia.
  - by exists banners.
  - destruct (fire_page t w0) as [Hb Hn].
    destruct (fire_engine t w0) as (Hbd & _ & Ht & Hh).
    exists (List.filter (fun n => negb (is_element (banner t) n)) banners).
    split.
    + rewrite Hb, (renderBoard_ext (game w0) (game (fire t w0)) Hbd Hh Ht).
      rewrite <- (filter_rows (banner t) (game w0)).
      rewrite <- List.filter_app. f_equal. exact Hpage.
    + apply Forall_filter_bool. eapply Forall_impl; [exact Hall|]. intros n.
      apply created_banner_mono. lia.
Qed.

Lemma reachable_shows w : reachable w -> exists banners, shows w banners.
Proof.
  induction 1 as [element win _|w w' Hw IH Hstep].
  - exists []. split; [|constructor]. rewrite app_nil_r.
    unfold new_Game, init. symmetry. by apply renderBoard_ext.
  - by apply (shows_step w).
Qed.

Lemma is_banner_created win banners :
  Forall (created_banner win) banners -> List.filter is_banner banners = banners.
Proof.
  intros H. apply filter_all_true. intros n Hn. rewrite Forall_forall in H.
  specialize (H n Hn). by destruct n.
Qed.

(** X11.  The page is never stale: in every reachable world the page is
    the rendering of the present board, history and turn count, followed
    by its banners, and every banner on it was created by an earlier
    [showWinner]. *)
Theorem page_in_sync w :
  reachable w ->
  boardElement (game w) =
    boardElement (renderBoard (game w)) ++
    List.filter is_banner (boardElement (game w)) /\
  Forall (created_banner (window w))
         (List.filter is_banner (boardElement (game w))).
Proof.
  intros (banners & Hpage & Hall)%reachable_shows.
  assert (Hb : List.filter is_banner (boardElement (game w)) = banners).
  { rewrite Hpage at 1.
    by rewrite List.filter_app, is_banner_renderBoard,
      (is_banner_created _ _ Hall). }
  by rewrite Hb.
Qed.

Lemma page_in_sync_witness :
  reachable after_win /\
  boardElement (game after_win) =
    boardElement (renderBoard (game after_win)) ++
    List.filter is_banner (boardElement (game after_win)) /\
  Forall (created_banner (window after_win))
         (List.filter is_banner (boardElement (game after_win))).
Proof.
  assert (Hw : reachable after_win) by apply reachable_plays, reachable_fresh.
  split; [exact Hw|]. exact (page_in_sync after_win Hw).
Defined.

Lemma index_app_l {A} (l k : list A) i x :
  index l i = Some x -> index (l ++ k) i = Some x.
Proof.
  unfold index. destruct (0 <=? i); [|done]. apply lookup_app_l_Some.
Qed.

Lemma cellElementAt_app rows rest r c d :
  cellElementAt rows r c = Some d -> cellElementAt (rows ++ rest) r c = Some d.
Proof.
  unfold cellElementAt. destruct (index rows r) as [n|] eqn:Hr; [|done].
  by rewrite (index_app_l _ _ _ _ Hr).
Qed.

Lemma opacity_tier a :
  0 <= a <= 4 ->
  index ["1"; "0.8"; "0.5"; "0.3"]%string (Z.min a (len ["1"; "0.8"; "0.5"; "0.3"]%string - 1))
  = Some (tier a).
Proof.
  intros Ha.
  assert (H : a = 0 \/ a = 1 \/ a = 2 \/ a = 3 \/ a = 4) by lia.
  destruct H as [->|[->|[->|[->| ->]]]]; reflexivity.
Qed.

Lemma processCell_opacity this cell r c :
  consistent this -> cellAt (board this) r c = Some cell ->
  (cell = None -> opacity (processCell this cell r c) = Some "1"%string) /\
  (forall e, e ∈ playHistory this -> row e = r -> col e = c ->
     opacity (processCell this cell r c)
     = Some (tier (turnCount this - turn e - 1))).
Proof.
  intros Hcons Hcell. unfold processCell.
  destruct (List.find _ (playHistory this)) as [e'|] eqn:Hf.
  - apply find_some in Hf as [He'%list_elem_of_In Hat].
    apply andb_true_iff in Hat as [Hr Hc].
    pose proof (cons_marks _ Hcons e' He') as Hm.
    replace (row e') with r in Hm by lia. replace (col e') with c in Hm by lia.
    split.
    + intros ->. congruence.
    + intros e He Hre Hce.
      assert (e' = e) as ->.
      { apply (cons_pos _ Hcons); [done..|]. unfold pos. f_equal; lia. }
      pose proof (cons_recent _ Hcons e He).
      unfold setCellOpacity. cbn [opacity]. apply opacity_tier. lia.
  - split; [done|]. intros e He%list_elem_of_In Hre Hce.
    apply (find_none _ _ Hf) in He. rewrite Hre, Hce, !Z.eqb_refl in He. done.
Qed.

(** X12.  In every reachable world the page shows the board: the cell
    element in row [r], column [c] carries the mark of [board[r][c]] as
    text and class; the element of an empty cell has opacity "1"; and the
    element of a mark fades with its age, the last move at "1", the move
    before at "0.8", then "0.5", and "0.3" for the two oldest, so its
    opacity is never left undefined. *)
Theorem page_shows_marks w r c cell :
  reachable w ->
  cellAt (board (game w)) r c = Some cell ->
  exists d,
    cellElementAt (boardElement (game w)) r c = Some d /\
    textContent d = cell /\
    classList d = "cell"%string ::
                  match cell with Some p => [symbol p] | None => [] end /\
    (cell = None -> opacity d = Some "1"%string) /\
    (forall e, e ∈ playHistory (game w) -> row e = r -> col e = c ->
       opacity d = Some (tier (turnCount (game w) - turn e - 1)) /\
       0 <= turnCount (game w) - turn e - 1 <= 4).
Proof.
  intros Hw Hcell. pose proof (reachable_consistent w Hw) as Hcons.
  destruct (reachable_shows w Hw) as (banners & -> & _).
  exists (processCell (game w) cell r c).
  destruct (processCell_mark (game w) cell r c) as [Ht Hc].
  destruct (processCell_opacity (game w) cell r c Hcons Hcell) as [Hn Ho].
  split_and!; try done.
  - apply cellElementAt_app. by rewrite cellElementAt_renderBoard, Hcell.
  - intros e He Hre Hce. split; [by apply Ho|].
    pose proof (cons_recent _ Hcons e He). lia.
Qed.

Lemma page_shows_marks_witness :
  reachable six_moves /\
  cellAt (board (game six_moves)) 0 2 = Some (Some X) /\
  exists d,
    cellElementAt (boardElement (game six_moves)) 0 2 = Some d /\
    textContent d = Some X /\
    classList d = ["cell"; "X"]%string /\
    opacity d = Some "0.3"%string.
Proof.
  assert (Hw : reachable six_moves)
    by (apply reachable_plays, reachable_plays, reachable_fresh).
  assert (Hc : cellAt (board (game six_moves)) 0 2 = Some (Some X))
    by (vm_compute; reflexivity).
  destruct (page_shows_marks six_moves 0 2 (Some X) Hw Hc)
    as (d & Hd & Ht & Hcl & _ & Ho).
  destruct (Ho {| player := X; row := 0; col := 2; turn := 2 |}) as [Hop _];
    [vm_compute; right; by left | reflexivity | reflexivity |].
  split_and!; [exact Hw | exact Hc |].
  exists d. split_and!; [exact Hd | exact Ht | exact Hcl | exact Hop].
Defined.

(** ** The life of a banner *)

Lemma page_fresh w element :
  reachable w -> nextElement (window w) <= element ->
  forall n, n ∈ boardElement (game w) -> is_element element n = false.
Proof.
  intros Hw Hfresh n. destruct (reachable_shows w Hw) as (banners & -> & Hall).
  rewrite elem_of_app. intros [Hn|Hn].
  - destruct n as [cells|e text]; [done|].
    assert (Hb : is_banner (WinnerMessage e text) = true) by done.
    assert (Hin : WinnerMessage e text ∈
                  List.filter is_banner (boardElement (renderBoard (game w))))
      by (by apply elem_of_filter_bool).
    rewrite is_banner_renderBoard in Hin. by apply elem_of_nil in Hin.
  - rewrite Forall_forall in Hall. specialize (Hall n Hn).
    destruct n as [cells|e text]; [done|]. simpl in *. lia.
Qed.

Lemma filter_fresh w element :
  reachable w -> nextElement (window w) <= element ->
  List.filter (fun n => negb (is_element element n)) (boardElement (game w))
  = boardElement (game w).
Proof.
  intros Hw Hfresh. apply filter_all_true. intros n Hn.
  by rewrite (page_fresh w element Hw Hfresh n Hn).
Qed.

(** X13.  A banner comes and goes: in a reachable world, once a winner is
    shown and 2000 ms or more have passed, the scheduled timeout can fire;
    it removes the banner, so the page is again what it was before the
    banner was shown, clears [winnerTimeoutId] and leaves no timeout
    pending. *)
Theorem banner_expires w winner d :
  reachable w -> 2000 <= d ->
  let t := {| handle := nextHandle (window w);
              due := now (window w) + 2000;
              banner := nextElement (window w) |} in
  let shown := advance d (show winner w) in
  step shown (fire t shown) /\
  boardElement (game (fire t shown)) = boardElement (game w) /\
  winnerTimeoutId (game (fire t shown)) = None /\
  timers (window (fire t shown)) = [].
Proof.
  intros Hw Hd t shown.
  destruct (show_timers winner w (reachable_one_timer w Hw)) as (Ht & _).
  assert (Hin : t ∈ timers (window shown)).
  { unfold shown. simpl. rewrite Ht. by left. }
  split_and!.
  - apply step_fire; [done|]. unfold shown, show, showWinner. simpl.
    destruct (winnerTimeoutId (game w)); simpl; lia.
  - destruct (fire_page t shown) as [-> _].
    change (boardElement (game shown)) with (boardElement (game (show winner w))).
    destruct (show_page winner w) as [-> _].
    rewrite List.filter_app, filter_fresh by (done || simpl; lia).
    simpl. by rewrite Z.eqb_refl, app_nil_r.
  - done.
  - unfold fire. simpl. rewrite Ht. simpl. by rewrite Z.eqb_refl.
Qed.

Lemma banner_expires_witness :
  let t := {| handle := nextHandle (window five_moves);
              due := now (window five_moves) + 2000;
              banner := nextElement (window five_moves) |} in
  let shown := advance 2000 (show X five_moves) in
  reachable five_moves /\
  step shown (fire t shown) /\
  boardElement (game (fire t shown)) = boardElement (game five_moves) /\
  winnerTimeoutId (game (fire t shown)) = None /\
  timers (window (fire t shown)) = [].
Proof.
  intros t shown.
  assert (Hw : reachable five_moves) by apply reachable_plays, reachable_fresh.
  split; [exact Hw|].
  apply (banner_expires five_moves X 2000 Hw). lia.
Defined.

(** X14.  [showWinner] cancels the timeout of a banner that is still up
    but does not remove that banner: called twice in a row from a
    reachable world, it leaves both banners on the page with one pending
    timeout, the second banner's; when that timeout fires, the second
    banner goes and the first stays, with no timeout left to remove it. *)
Theorem cancelled_banner_stays w a b :
  reachable w ->
  let first := WinnerMessage (nextElement (window w))
                             (String.append (symbol a) " wins!") in
  let second := WinnerMessage (nextElement (window w) + 1)
                              (String.append (symbol b) " wins!") in
  let t := {| handle := nextHandle (window w) + 1;
              due := now (window w) + 2000;
              banner := nextElement (window w) + 1 |} in
  let twice := show b (show a w) in
  boardElement (game twice) = boardElement (game w) ++ [first; second] /\
  timers (window twice) = [t] /\
  boardElement (game (fire t twice)) = boardElement (game w) ++ [first] /\
  timers (window (fire t twice)) = [].
Proof.
  intros Hw first second t twice.
  pose proof (reachable_one_timer w Hw) as Hone.
  destruct (show_page a w) as [Ha Hna].
  destruct (show_page b (show a w)) as [Hb _].
  destruct (show_timers a w Hone) as (_ & _ & Hh).
  destruct (show_timers b (show a w) (one_timer_show a w Hone)) as (Ht & _).
  assert (Hnow : now (window (show a w)) = now (window w)).
  { unfold show, showWinner. by destruct (winnerTimeoutId (game w)). }
  assert (Htw : boardElement (game twice) = boardElement (game w) ++ [first; second]).
  { unfold twice. rewrite Hb, Ha, Hna, <- app_assoc. done. }
  assert (Htt : timers (window twice) = [t]).
  { unfold twice. rewrite Ht. unfold scheduled. by rewrite Hh, Hna, Hnow. }
  split_and!; [done|done| |].
  - destruct (fire_page t twice) as [-> _]. rewrite Htw.
    rewrite List.filter_app, filter_fresh by (done || simpl; lia).
    f_equal. simpl. rewrite Z.eqb_refl. simpl.
    destruct (Z.eqb_spec (nextElement (window w)) (nextElement (window w) + 1));
      [lia|done].
  - unfold fire. simpl. rewrite Htt. simpl. by rewrite Z.eqb_refl.
Qed.

Lemma cancelled_banner_stays_witness :
  let w := five_moves in
  let first := WinnerMessage (nextElement (window w))
                             (String.append (symbol X) " wins!") in
  let second := WinnerMessage (nextElement (window w) + 1)
                              (String.append (symbol O) " wins!") in
  let t := {| handle := nextHandle (window w) + 1;
              due := now (window w) + 2000;
              banner := nextElement (window w) + 1 |} in
  let twice := show O (show X w) in
  reachable w /\
  boardElement (game twice) = boardElement (game w) ++ [first; second] /\
  timers (window twice) = [t] /\
  boardElement (game (fire t twice)) = boardElement (game w) ++ [first] /\
  timers (window (fire t twice)) = [].
Proof.
  intros w first second t twice.
  assert (Hw : reachable w) by apply reachable_plays, reachable_fresh.
  split; [exact Hw|]. exact (cancelled_banner_stays w X O Hw).
Defined.

(** ** Valid cells *)

(** X15.  Whatever the shape of the board, [isValidCell] accepts a pair
    of indices exactly when [board[row][col]] exists; on the 3 by 3 board
    these are the pairs with both indices among 0, 1, 2. *)
Theorem isValidCell_iff_cell this r c :
  (isValidCell this r c = true <-> is_Some (cellAt (board this) r c)) /\
  (grid3x3 (board this) ->
   (isValidCell this r c = true <-> 0 <= r < 3 /\ 0 <= c < 3)).
Proof.
  split.
  - split; [apply cellAt_is_Some|]. intros [v Hv]. by apply (cellAt_Some _ _ _ v).
  - intros Hg. by apply grid3x3_inBoard.
Qed.

(** ** Coordinates that are not integers *)

Lemma is_integer_inject_Z z : is_integer (inject_Z z) = true.
Proof. unfold is_integer. simpl. rewrite Z.mod_1_r. done. Qed.

Lemma integer_of_inject_Z z : integer_of (inject_Z z) = z.
Proof. unfold integer_of. simpl. apply Z.div_1_r. Qed.

Lemma index_number_inject_Z {A} (a : list A) z :
  index_number a (inject_Z z) = index a z.
Proof.
  unfold index_number. by rewrite is_integer_inject_Z, integer_of_inject_Z.
Qed.

Lemma number_geb_inject_Z x y :
  number_geb (inject_Z x) (inject_Z y) = (x >=? y).
Proof.
  unfold number_geb, Qle_bool. simpl. rewrite !Z.mul_1_r.
  destruct (Z.leb_spec y x), (Z.geb_spec x y); done || lia.
Qed.

Lemma number_ltb_inject_Z x y :
  number_ltb (inject_Z x) (inject_Z y) = (x <? y).
Proof.
  unfold number_ltb, Qle_bool. simpl. rewrite !Z.mul_1_r.
  destruct (Z.leb_spec y x), (Z.ltb_spec x y); done || lia.
Qed.

Lemma isValidCell_number_integer this r c :
  isValidCell_number this (inject_Z r) (inject_Z c)
  = Normally (isValidCell this r c).
Proof.
  unfold isValidCell_number, isValidCell, inBoard.
  change 0%Q with (inject_Z 0).
  rewrite !number_geb_inject_Z, number_ltb_inject_Z, index_number_inject_Z.
  destruct (Z.geb_spec r 0); [|done]. destruct (Z.ltb_spec r (len (board this))); [|done].
  destruct (Z.geb_spec c 0); [|done]. simpl.
  destruct (index_is_Some (board this) r) as [rw Hrw]; [lia|].
  unfold rowAt. rewrite Hrw. simpl. by rewrite number_ltb_inject_Z.
Qed.

(** On integer coordinates [play_number] is [play]. *)
Lemma play_number_integer r c w :
  play_number (inject_Z r) (inject_Z c) w
  = (Normally (fst (play r c w)), snd (play r c w)).
Proof.
  unfold play_number. rewrite isValidCell_number_integer.
  destruct (isValidCell (game w) r c) eqn:Hv.
  2:{ by rewrite play_invalid. }
  rewrite !integer_of_inject_Z, index_number_inject_Z.
  pose proof Hv as [Hr _]%inBoard_spec.
  destruct (index_is_Some (board (game w)) r) as [rw Hrw]; [done|].
  assert (Hcell : index (board (game w)) r ≫= (fun rw => index_number rw (inject_Z c))
                  = cellAt (board (game w)) r c).
  { unfold cellAt, rowAt. rewrite Hrw. simpl. apply index_number_inject_Z. }
  rewrite Hcell.
  destruct (not_null (cellAt (board (game w)) r c)) eqn:Hn.
  - rewrite play_taken; [done..|]. intros E. by rewrite E in Hn.
  - by destruct (play r c w).
Qed.

Lemma number_ltb_ge x y : number_ltb x y = false <-> (y <= x)%Q.
Proof.
  unfold number_ltb. rewrite negb_false_iff. apply Qle_bool_iff.
Qed.

Lemma number_ltb_lt x y : number_ltb x y = true <-> (x < y)%Q.
Proof.
  unfold number_ltb. rewrite negb_true_iff. split.
  - intros H. apply Qnot_le_lt. intros Hle%Qle_bool_iff. congruence.
  - intros H. destruct (Qle_bool y x) eqn:E; [|done].
    apply Qle_bool_iff in E. by apply Qlt_not_le in H.
Qed.

Lemma number_geb_ge x y : number_geb x y = true <-> (y <= x)%Q.
Proof. apply Qle_bool_iff. Qed.

Lemma number_geb_lt x y : number_geb x y = false <-> (x < y)%Q.
Proof.
  unfold number_geb. split.
  - intros H. apply Qnot_le_lt. intros Hle%Qle_bool_iff. congruence.
  - intros H. destruct (Qle_bool y x) eqn:E; [|done].
    apply Qle_bool_iff in E. by apply Qlt_not_le in H.
Qed.

Lemma index_number_grid3x3 b row :
  grid3x3 b -> (0 <= row)%Q -> (row < 3)%Q -> is_integer row = true ->
  exists rw, index_number b row = Some rw /\ len rw = 3.
Proof.
  intros (a0&a1&a2&b0&b1&b2&c0&c1&c2&->)%grid3x3_inv H0 H3 Hi.
  unfold index_number. rewrite Hi. unfold is_integer, integer_of in *.
  destruct row as [n d]. unfold Qle, Qlt in *. simpl in *.
  apply Z.eqb_eq in Hi. apply Z.mod_divide in Hi as [k ->]; [|lia].
  rewrite Z.div_mul by lia.
  assert (k = 0 \/ k = 1 \/ k = 2) as [->|[->| ->]] by nia; eauto.
Qed.

(** C5.  The bounds check of [play] misses the coordinates that are not
    integers: [play(2.5, 3)] on a fresh game has its column outside
    [0, 3), yet [isValidCell] reads [this.board[2.5].length], and a
    [TypeError] escapes instead of the invalid-move error; nothing has
    been written.  With the row 3.5, outside [0, 3), the same call throws
    the invalid-move error. *)
Theorem play_fractional_row_escapes :
  play_number (5 # 2) (inject_Z 3) fresh_world = (TypeError, fresh_world) /\
  play_number (7 # 2) (inject_Z 3) fresh_world
    = (Normally (Throw InvalidCellError), fresh_world).
Proof. split; vm_compute; reflexivity. Qed.

(** X17.  What [play] does with any finite numbers on a 3 by 3 board,
    before it writes anything.  It throws the invalid-move error, and
    changes nothing, when the row is below 0 or not below 3, when the
    column is below 0, and when the row is an integer and the column is
    not below 3.  It lets a [TypeError] escape, and changes nothing, when
    the row lies in [0, 3) without being an integer and the column is not
    below 0, whatever the column.  And for an integer row of the board
    and a column in [0, 3) that is not an integer it throws the
    cell-taken error, though no cell is there. *)
Theorem play_number_bounds w row col :
  grid3x3 (board (game w)) ->
  ((row < 0)%Q \/ (3 <= row)%Q \/ (col < 0)%Q \/
   (is_integer row = true /\ (3 <= col)%Q) ->
   play_number row col w = (Normally (Throw InvalidCellError), w)) /\
  ((0 <= row)%Q -> (row < 3)%Q -> is_integer row = false -> (0 <= col)%Q ->
   play_number row col w = (TypeError, w)) /\
  ((0 <= row)%Q -> (row < 3)%Q -> is_integer row = true ->
   (0 <= col)%Q -> (col < 3)%Q -> is_integer col = false ->
   play_number row col w = (Normally (Throw CellTakenError), w)).
Proof.
  intros Hg.
  assert (Hlen : inject_Z (len (board (game w))) = 3%Q).
  { by destruct (grid3x3_inv _ Hg) as (a0&a1&a2&b0&b1&b2&c0&c1&c2&->). }
  unfold play_number, isValidCell_number. rewrite Hlen. split_and!.
  - intros H.
    destruct (number_geb row 0) eqn:H0; [|done]. cbn [negb].
    destruct (number_ltb row 3) eqn:H3; [|done]. cbn [negb].
    destruct (number_geb col 0) eqn:Hc; [|done]. cbn [negb].
    apply number_geb_ge in H0, Hc. apply number_ltb_lt in H3.
    destruct H as [H|[H|[H|[Hi H]]]].
    + by apply Qlt_not_le in H.
    + by apply Qlt_not_le in H3.
    + by apply Qlt_not_le in H.
    + destruct (index_number_grid3x3 _ row Hg H0 H3 Hi) as (rw & -> & ->).
      replace (number_ltb col (inject_Z 3)) with false; [done|].
      symmetry. by apply number_ltb_ge.
  - intros H0 H3 Hi Hc.
    apply number_geb_ge in H0, Hc. apply number_ltb_lt in H3.
    rewrite H0, H3, Hc. cbn [negb]. unfold index_number. by rewrite Hi.
  - intros H0 H3 Hi Hc Hc3 Hci.
    destruct (index_number_grid3x3 _ row Hg H0 H3 Hi) as (rw & -> & ->).
    apply number_geb_ge in H0, Hc. apply number_ltb_lt in H3, Hc3.
    rewrite H0, H3, Hc. cbn [negb]. change (inject_Z 3) with 3%Q.
    rewrite Hc3. simpl. unfold index_number at 1. by rewrite Hci.
Qed.

Lemma play_number_bounds_witness :
  grid3x3 (board (game fresh_world)) /\
  play_number (7 # 2) (1 # 2) fresh_world
    = (Normally (Throw InvalidCellError), fresh_world) /\
  play_number (1 # 2) (9 # 2) fresh_world = (TypeError, fresh_world) /\
  play_number (inject_Z 0) (3 # 2) fresh_world
    = (Normally (Throw CellTakenError), fresh_world).
Proof.
  assert (Hg : grid3x3 (board (game fresh_world))) by reflexivity.
  destruct (play_number_bounds fresh_world (7 # 2) (1 # 2) Hg) as (H1 & _ & _).
  destruct (play_number_bounds fresh_world (1 # 2) (9 # 2) Hg) as (_ & H2 & _).
  destruct (play_number_bounds fresh_world (inject_Z 0) (3 # 2) Hg)
    as (_ & _ & H3).
  split_and!; [exact Hg | | |].
  - apply H1. right. left. by vm_compute.
  - apply H2; by vm_compute.
  - apply H3; by vm_compute.
Defined.
